(** * Birdy's Seed Quest: the grid engine and the session controller

    A shallow embedding of the game logic of the repository:
    - [types.ts]: [GameState], [Difficulty], [Position], [SeedType], [Seed];
    - [components/GameBoard.tsx]: [difficultySettings], [getRandomPosition],
      [getNewSeedType], [resetGame], [handleKeyDown], and the [style]
      rectangles of the bird and of the seeds;
    - [App.tsx]: the session state and its handlers, the persistence effect
      and [renderContent], which decides whether the board is mounted.

    Modelling conventions.
    - Coordinates, seed identifiers, scores and counters are JavaScript
      numbers that only ever hold integers; they are values of [Z].
      [totalPoints] is read from a stored string and is a value of
      [Js.number].
    - [Math.random] is an oracle: the [n]-th call of a run returns
      [random n], a rational of the interval [0,1).  The number of calls
      made so far is the state threaded through the code that draws random
      numbers.
    - The [do ... while] loop of [getRandomPosition] has no bound in the
      source.  It is embedded with a bound [fuel] on the number of
      iterations; running out of fuel ([None]) stands for a loop that has
      not returned yet.  What a run returns does not depend on the fuel
      (lemmas [getRandomPosition_mono] to [handleKeyDown_stable]).
    - React state: an event handler sees the state committed by the last
      render, every updater function is applied once, and the effects of a
      render (listener registration, persistence, mounting and unmounting
      of the board) are committed before the next event is dispatched.
    - The callback props [onGameOver], [onScore] and [onCoinCollect] are the
      signals of the engine; a handler returns the list of signals it
      emitted, in order.

    The file has two parts: the definitions (the embedding, then the
    vocabulary of the specification and some concrete games), and the
    lemmas and theorems about them. *)

From Stdlib Require Import ZArith QArith Qround Lia Lqa Ascii String DecimalString.
From Stdlib Require Import DecimalFacts DecimalPos DecimalN.
From stdpp Require Import base list gmap strings.

Open Scope Z_scope.

(** ** JavaScript array helpers used by the board *)

Module Array.
Section Helpers.
Context {A : Type}.

(** [l.findIndex(p)]: the index of the first element satisfying [p], and
    [-1] when there is none. *)
Fixpoint findIndexFrom (p : A → bool) (i : Z) (l : list A) : Z :=
  match l with
  | [] => -1
  | a :: l' => if p a then i else findIndexFrom p (i + 1) l'
  end.

Definition findIndex (p : A → bool) (l : list A) : Z :=
  findIndexFrom p 0 l.

(** [l.some(p)]. *)
Fixpoint some (p : A → bool) (l : list A) : bool :=
  match l with
  | [] => false
  | a :: l' => if p a then true else some p l'
  end.

(** [l.filter((a, index) => keep(a, index))]. *)
Fixpoint filterFrom (keep : A → Z → bool) (i : Z) (l : list A) : list A :=
  match l with
  | [] => []
  | a :: l' =>
      if keep a i then a :: filterFrom keep (i + 1) l'
      else filterFrom keep (i + 1) l'
  end.

Definition filter (keep : A → Z → bool) (l : list A) : list A :=
  filterFrom keep 0 l.

(** [l[i]] for a numeric index; [None] is JavaScript's [undefined]. *)
Definition get (l : list A) (i : Z) : option A :=
  if i <? 0 then None else l !! Z.to_nat i.
End Helpers.
End Array.

(** ** types.ts *)

Inductive GameState := Ready | Playing | GameOver | ModeSelection.

Inductive Difficulty := easy | normal | hard.

Record Position := mkPosition { x : Z; y : Z }.

Inductive SeedType := Good | Hard | Coin.

Record Seed := mkSeed { id : Z; position : Position; type : SeedType }.

#[global] Instance GameState_eq_dec : EqDecision GameState.
Proof. solve_decision. Defined.
#[global] Instance Difficulty_eq_dec : EqDecision Difficulty.
Proof. solve_decision. Defined.
#[global] Instance Position_eq_dec : EqDecision Position.
Proof. solve_decision. Defined.
#[global] Instance SeedType_eq_dec : EqDecision SeedType.
Proof. solve_decision. Defined.
#[global] Instance Seed_eq_dec : EqDecision Seed.
Proof. solve_decision. Defined.

(** [a.x === b.x && a.y === b.y], the test both [getRandomPosition] and
    [handleKeyDown] use to compare cells. *)
Definition samePosition (a b : Position) : bool :=
  (x a =? x b) && (y a =? y b).

(** ** The random-draw monad

    A computation that calls [Math.random] maps the number of calls made so
    far to its result and the new number of calls; [None] is a computation
    that has not returned. *)

Definition Rand (A : Type) : Type := nat → option (A * nat).

#[global] Instance Rand_ret : MRet Rand := λ A a n, Some (a, n).
#[global] Instance Rand_bind : MBind Rand := λ A B f m n,
  match m n with
  | Some (a, n') => f a n'
  | None => None
  end.

(** The rejection loop has used up its fuel. *)
Definition outOfFuel {A : Type} : Rand A := λ _, None.

(** Reading a property of [undefined] throws; the handler does not return. *)
Definition throwTypeError {A : Type} : Rand A := λ _, None.

(** ** components/GameBoard.tsx *)

Record Settings := mkSettings {
  initialSeeds : Z;
  hardSeedChance : Q;
  coinChance : Q
}.

(** The chances are the decimal literals of the source, read as exact
    rationals. *)
Definition difficultySettings (d : Difficulty) : Settings :=
  match d with
  | easy => mkSettings 30 (1 # 10) (15 # 100)
  | normal => mkSettings 40 (2 # 10) (1 # 10)
  | hard => mkSettings 50 (35 # 100) (5 # 100)
  end.

(** The callback props of the board: the signals of the engine. *)
Inductive Signal := onGameOver | onScore | onCoinCollect.

#[global] Instance Signal_eq_dec : EqDecision Signal.
Proof. solve_decision. Defined.

(** The state a mounted board owns: the two [useState] cells and the
    [useRef] counter. *)
Record Board := mkBoard {
  birdPosition : Position;
  seeds : list Seed;
  seedIdCounter : Z
}.

#[global] Instance Board_eq_dec : EqDecision Board.
Proof. solve_decision. Defined.

Section GameBoard.
(** [BOARD_SIZE] is imported from [constants.ts], which is not part of the
    sources at hand: it is a parameter of the engine. *)
Variable BOARD_SIZE : Z.

(** The oracle behind [Math.random]. *)
Variable random : nat → Q.

Definition Math_random : Rand Q := λ n, Some (random n, S n).

(** [Math.floor(Math.random() * BOARD_SIZE)]. *)
Definition randomCoordinate : Rand Z :=
  r ← Math_random; mret (Qfloor (r * inject_Z BOARD_SIZE)).

Fixpoint getRandomPosition (fuel : nat) (existingPositions : list Position)
    : Rand Position :=
  match fuel with
  | O => outOfFuel
  | S fuel' =>
      nx ← randomCoordinate;
      ny ← randomCoordinate;
      let newPosition := {| x := nx; y := ny |} in
      let isOccupied :=
        Array.some (λ p, samePosition p newPosition) existingPositions in
      if isOccupied then getRandomPosition fuel' existingPositions
      else mret newPosition
  end.

Section WithDifficulty.
Variable difficulty : Difficulty.

Definition getNewSeedType : Rand SeedType :=
  rand ← Math_random;
  let s := difficultySettings difficulty in
  if Qlt_le_dec rand (hardSeedChance s) then mret Hard
  else if Qlt_le_dec rand (hardSeedChance s + coinChance s) then mret Coin
  else mret Good.

(** The [for] loop of [resetGame]: [n] iterations are left, [i] is the loop
    variable. *)
Fixpoint resetLoop (fuel : nat) (n : nat) (i : Z)
    (newSeeds : list Seed) (existingPositions : list Position)
    : Rand (list Seed) :=
  match n with
  | O => mret newSeeds
  | S n' =>
      position ← getRandomPosition fuel existingPositions;
      ty ← getNewSeedType;
      resetLoop fuel n' (i + 1)
        (newSeeds ++ [{| id := i; position := position; type := ty |}])
        (existingPositions ++ [position])
  end.

Definition resetGame (fuel : nat) : Rand Board :=
  let initialBirdPos := {| x := BOARD_SIZE / 2; y := BOARD_SIZE / 2 |} in
  let n := initialSeeds (difficultySettings difficulty) in
  newSeeds ← resetLoop fuel (Z.to_nat n) 0 [] [initialBirdPos];
  mret {| birdPosition := initialBirdPos;
          seeds := newSeeds;
          seedIdCounter := n |}.

(** The [switch (e.key)] of [handleKeyDown]: the candidate cell, and [None]
    for the [default] branch. *)
Definition candidate (key : string) (prevPos : Position) : option Position :=
  if String.eqb key "ArrowUp" then
    Some {| x := x prevPos; y := Z.max 0 (y prevPos - 1) |}
  else if String.eqb key "ArrowDown" then
    Some {| x := x prevPos; y := Z.min (BOARD_SIZE - 1) (y prevPos + 1) |}
  else if String.eqb key "ArrowLeft" then
    Some {| x := Z.max 0 (x prevPos - 1); y := y prevPos |}
  else if String.eqb key "ArrowRight" then
    Some {| x := Z.min (BOARD_SIZE - 1) (x prevPos + 1); y := y prevPos |}
  else None.

(** The updater passed to [setBirdPosition], together with the [setSeeds]
    call and the counter increment it performs.  The result is the board
    after the event and the signals emitted.  ([e.preventDefault()] only
    concerns the browser's scrolling.) *)
Definition handleKeyDown (fuel : nat) (key : string) (b : Board)
    : Rand (Board * list Signal) :=
  let prevPos := birdPosition b in
  match candidate key prevPos with
  | None => mret (b, [])
  | Some newPos =>
      let collidedSeedIndex :=
        Array.findIndex (λ seed, samePosition (position seed) newPos)
                        (seeds b) in
      if collidedSeedIndex =? -1 then
        mret ({| birdPosition := newPos;
                 seeds := seeds b;
                 seedIdCounter := seedIdCounter b |}, [])
      else
        match Array.get (seeds b) collidedSeedIndex with
        | None => throwTypeError
        | Some collidedSeed =>
            match type collidedSeed with
            | Hard => mret (b, [onGameOver])
            | ty =>
                let signal :=
                  match ty with Coin => onCoinCollect | _ => onScore end in
                let newSeedsList :=
                  Array.filter (λ _ index, negb (index =? collidedSeedIndex))
                               (seeds b) in
                let existingPositions :=
                  newPos :: (position <$> newSeedsList) in
                newSeedPosition ← getRandomPosition fuel existingPositions;
                let newId := seedIdCounter b in
                newType ← getNewSeedType;
                mret ({| birdPosition := newPos;
                         seeds := newSeedsList ++
                           [{| id := newId;
                               position := newSeedPosition;
                               type := newType |}];
                         seedIdCounter := seedIdCounter b + 1 |},
                      [signal])
            end
        end
  end.
End WithDifficulty.
End GameBoard.

(** ** JavaScript numbers and their conversions from and to strings

    [totalPoints] is a JavaScript number read from a string the browser
    stored, so it need not be an integer.  A finite number is an exact
    decimal [m / 10^k]; rounding to a double, overflow to [Infinity] and the
    sign of zero are not modelled.  Strings are strings of ASCII
    characters. *)

Module Js.

Inductive number := NaN | Infinity (negative : bool) | Finite (m : Z) (k : nat).

#[global] Instance number_eq_dec : EqDecision number.
Proof. solve_decision. Defined.

(** The canonical form of [m / 10^k]: no trailing zero after the point. *)
Fixpoint normalize (m : Z) (k : nat) : number :=
  match k with
  | O => Finite m 0
  | S k' => if m mod 10 =? 0 then normalize (m / 10) k' else Finite m k
  end.

Definition ofZ (z : Z) : number := Finite z 0.

(** [a + b]. *)
Definition add (a b : number) : number :=
  match a, b with
  | NaN, _ | _, NaN => NaN
  | Infinity s, Infinity t => if Bool.eqb s t then Infinity s else NaN
  | Infinity s, Finite _ _ | Finite _ _, Infinity s => Infinity s
  | Finite m1 k1, Finite m2 k2 =>
      let k := Nat.max k1 k2 in
      normalize (m1 * 10 ^ Z.of_nat (k - k1) + m2 * 10 ^ Z.of_nat (k - k2)) k
  end.

(** Truthiness of a number: [NaN] and zero are falsy. *)
Definition ToBoolean (a : number) : bool :=
  match a with
  | NaN => false
  | Infinity _ => true
  | Finite m _ => negb (m =? 0)
  end.

(** [a || b] on numbers. *)
Definition or (a b : number) : number := if ToBoolean a then a else b.

Definition isNegative (a : number) : bool :=
  match a with
  | NaN => false
  | Infinity s => s
  | Finite m _ => m <? 0
  end.

(** *** [String(n)], after Number::toString of ECMAScript *)

Definition digitsOf (n : Z) : list ascii :=
  list_ascii_of_string (NilEmpty.string_of_uint (N.to_uint (Z.to_N n))).

Fixpoint dropZeros (l : list ascii) : list ascii :=
  match l with
  | "0"%char :: l' => dropZeros l'
  | _ => l
  end.

Definition stripTrailingZeros (l : list ascii) : list ascii :=
  rev (dropZeros (rev l)).

Definition exponentPart (e : Z) : list ascii :=
  "e"%char :: (if e <? 0 then "-"%char else "+"%char) :: digitsOf (Z.abs e).

Definition ToString (a : number) : string :=
  match a with
  | NaN => "NaN"
  | Infinity false => "Infinity"
  | Infinity true => "-Infinity"
  | Finite m kk =>
      if m =? 0 then "0"
      else
        let all := digitsOf (Z.abs m) in
        let s := stripTrailingZeros all in
        let k := Z.of_nat (length s) in
        let n := Z.of_nat (length all) - Z.of_nat kk in
        let body :=
          if (k <=? n) && (n <=? 21) then
            s ++ replicate (Z.to_nat (n - k)) "0"%char
          else if (0 <? n) && (n <=? 21) then
            take (Z.to_nat n) s ++ "."%char :: drop (Z.to_nat n) s
          else if (-6 <? n) && (n <=? 0) then
            "0"%char :: "."%char :: replicate (Z.to_nat (- n)) "0"%char ++ s
          else if k =? 1 then
            s ++ exponentPart (n - 1)
          else
            take 1 s ++ "."%char :: drop 1 s ++ exponentPart (n - 1) in
        string_of_list_ascii ((if m <? 0 then ["-"%char] else []) ++ body)
  end.

(** *** [Number(s)], after StringToNumber of ECMAScript *)

Definition code (a : ascii) : Z := Z.of_N (N_of_ascii a).

Definition isWhiteSpace (a : ascii) : bool :=
  let n := code a in ((9 <=? n) && (n <=? 13)) || (n =? 32).

Definition digitValue (base : Z) (a : ascii) : option Z :=
  let n := code a in
  let v :=
    if (48 <=? n) && (n <=? 57) then n - 48
    else if (97 <=? n) && (n <=? 102) then n - 87
    else if (65 <=? n) && (n <=? 70) then n - 55
    else 16 in
  if v <? base then Some v else None.

(** The longest prefix of digits in the given base: its digits read so far
    as a number, how many there are, and what follows them. *)
Fixpoint readDigits (base : Z) (acc : Z) (count : nat) (l : list ascii)
    : Z * nat * list ascii :=
  match l with
  | [] => (acc, count, [])
  | a :: l' =>
      match digitValue base a with
      | Some v => readDigits base (acc * base + v) (S count) l'
      | None => (acc, count, l)
      end
  end.

Fixpoint trimStart (l : list ascii) : list ascii :=
  match l with
  | a :: l' => if isWhiteSpace a then trimStart l' else l
  | [] => []
  end.

Definition trim (l : list ascii) : list ascii :=
  rev (trimStart (rev (trimStart l))).

(** A non-decimal integer literal: the digits after [0x], [0o] or [0b]. *)
Definition nonDecimal (base : Z) (l : list ascii) : number :=
  match readDigits base 0 0 l with
  | (v, S _, []) => Finite v 0
  | _ => NaN
  end.

(** [m * 10^e] as a number. *)
Definition scale (m e : Z) : number :=
  if 0 <=? e then Finite (m * 10 ^ e) 0 else normalize m (Z.to_nat (- e)).

(** The exponent part of a decimal literal, or [None] when [l] is not one. *)
Definition readExponent (l : list ascii) : option Z :=
  match l with
  | [] => Some 0
  | e :: l' =>
      if (code e =? 101) || (code e =? 69) then
        let '(negative, l'') :=
          match l' with
          | "-"%char :: r => (true, r)
          | "+"%char :: r => (false, r)
          | _ => (false, l')
          end in
        match readDigits 10 0 0 l'' with
        | (v, S _, []) => Some (if negative : bool then - v else v)
        | _ => None
        end
      else None
  end.

(** An unsigned decimal literal. *)
Definition unsignedDecimal (negative : bool) (l : list ascii) : number :=
  if decide (l = list_ascii_of_string "Infinity") then Infinity negative
  else
    let '(ip, ni, r1) := readDigits 10 0 0 l in
    let '(m, nf, r2) :=
      match r1 with
      | "."%char :: r => readDigits 10 ip 0 r
      | _ => (ip, 0%nat, r1)
      end in
    match (ni + nf)%nat, readExponent r2 with
    | S _, Some e =>
        scale (if negative then - m else m) (e - Z.of_nat nf)
    | _, _ => NaN
    end.

Definition StringToNumber (s : string) : number :=
  match trim (list_ascii_of_string s) with
  | [] => Finite 0 0
  | "0"%char :: p :: r =>
      let n := code p in
      if (n =? 120) || (n =? 88) then nonDecimal 16 r
      else if (n =? 111) || (n =? 79) then nonDecimal 8 r
      else if (n =? 98) || (n =? 66) then nonDecimal 2 r
      else unsignedDecimal false ("0"%char :: p :: r)
  | "-"%char :: r => unsignedDecimal true r
  | "+"%char :: r => unsignedDecimal false r
  | l => unsignedDecimal false l
  end.

(** [Number(v)] for [v : string | null]; [Number(null)] is [0]. *)
Definition Number (v : option string) : number :=
  match v with
  | None => Finite 0 0
  | Some s => StringToNumber s
  end.

(** The numbers the model computes with are canonical: one value has one
    representation, so that equality of representations is [Object.is]. *)
Definition canonical (a : number) : Prop :=
  match a with
  | Finite m k => k = 0%nat ∨ m mod 10 ≠ 0
  | _ => True
  end.

End Js.

(** ** App.tsx: the session controller *)

(** The [useState] cells of [App].  The four [Audio] objects and [playSound]
    are presentation cues and are left out. *)
Record App := mkApp {
  gameState : GameState;
  score : Z;
  coins : Z;
  totalPoints : Js.number;
  difficulty : Difficulty
}.

#[global] Instance App_eq_dec : EqDecision App.
Proof. solve_decision. Defined.

(** The browser's [localStorage]. *)
Abbreviation Storage := (gmap string string).

(** [Number(localStorage.getItem('totalPoints')) || 0], the initializer of
    the [totalPoints] cell. *)
Definition initialTotalPoints (localStorage : Storage) : Js.number :=
  Js.or (Js.Number (localStorage !! "totalPoints")) (Js.Finite 0 0).

Definition initialApp (localStorage : Storage) : App :=
  {| gameState := Ready;
     score := 0;
     coins := 0;
     totalPoints := initialTotalPoints localStorage;
     difficulty := normal |}.

Definition handleStartGame (a : App) : App :=
  {| gameState := Playing;
     score := 0;
     coins := 0;
     totalPoints := totalPoints a;
     difficulty := difficulty a |}.

(** [score] is the value the callback closed over: the score of the last
    render. *)
Definition handleGameOver (a : App) : App :=
  {| gameState := GameOver;
     score := score a;
     coins := coins a;
     totalPoints := Js.add (totalPoints a) (Js.ofZ (score a));
     difficulty := difficulty a |}.

Definition handleScore (a : App) : App :=
  {| gameState := gameState a;
     score := score a + 1;
     coins := coins a;
     totalPoints := totalPoints a;
     difficulty := difficulty a |}.

Definition handleCoinCollect (a : App) : App :=
  {| gameState := gameState a;
     score := score a + 1;
     coins := coins a + 1;
     totalPoints := totalPoints a;
     difficulty := difficulty a |}.

Definition handleSelectDifficulty (newDifficulty : Difficulty) (a : App) : App :=
  {| gameState := Ready;
     score := score a;
     coins := coins a;
     totalPoints := totalPoints a;
     difficulty := newDifficulty |}.

(** The inline handlers [() => setGameState(GameState.ModeSelection)] of the
    "Game Modes" button and [() => setGameState(GameState.Ready)] of the
    "Back" button. *)
Definition setGameState (g : GameState) (a : App) : App :=
  {| gameState := g;
     score := score a;
     coins := coins a;
     totalPoints := totalPoints a;
     difficulty := difficulty a |}.

(** The body of the effect
    [localStorage.setItem('totalPoints', String(totalPoints))]. *)
Definition persistTotalPoints (a : App) (localStorage : Storage) : Storage :=
  <["totalPoints" := Js.ToString (totalPoints a)]> localStorage.

(** The effect has [totalPoints] as its dependency: after a render in which
    the total went from that of [a] to that of [a'], its body runs when the
    two differ. *)
Definition storageAfter (a a' : App) (storage : Storage) : Storage :=
  if decide (totalPoints a' = totalPoints a) then storage
  else persistTotalPoints a' storage.

(** The board calls the props it was rendered with. *)
Definition deliver (a : App) (s : Signal) : App :=
  match s with
  | onGameOver => handleGameOver a
  | onScore => handleScore a
  | onCoinCollect => handleCoinCollect a
  end.

(** ** The running page: [App], the board it renders and the storage *)

Record System := mkSystem {
  app : App;
  board : option Board;
  localStorage : Storage
}.

(** What the user can do to the page. *)
Inductive Event :=
| KeyDown (key : string)
| ClickStart
| ClickGameModes
| ClickDifficulty (d : Difficulty)
| ClickBack.

Section Page.
Variable BOARD_SIZE : Z.
Variable random : nat → Q.

(** The render that follows an event and its effects.
    - [renderContent] returns a [GameBoard] only in the [Playing] state: the
      board is mounted when the state becomes [Playing], and unmounted,
      which removes its [keydown] listener, when the state leaves [Playing].
      A mounting board starts from [useState({x: 10, y: 10})],
      [useState([])] and [useRef(initialSeeds)], and its first effect calls
      [resetGame], which overwrites all three before any event is handled.
    - The persistence effect runs when [totalPoints] has changed. *)
Definition commit (fuel : nat) (old : System) (a' : App) (b' : option Board)
    : Rand System :=
  let storage := storageAfter (app old) a' (localStorage old) in
  match gameState a' with
  | Playing =>
      match b' with
      | Some b => mret {| app := a'; board := Some b; localStorage := storage |}
      | None =>
          b ← resetGame BOARD_SIZE random (difficulty a') fuel;
          mret {| app := a'; board := Some b; localStorage := storage |}
      end
  | _ => mret {| app := a'; board := None; localStorage := storage |}
  end.

(** The first render of the page: nothing has been played, and the
    persistence effect runs once. *)
Definition mountApp (stored : Storage) : System :=
  let a := initialApp stored in
  {| app := a; board := None; localStorage := persistTotalPoints a stored |}.

(** One event.  A key press reaches [handleKeyDown] only while a board is
    mounted; a click reaches its handler only in the states whose screen
    shows the button. *)
Definition dispatch (fuel : nat) (ev : Event) (sys : System)
    : Rand (System * list Signal) :=
  let a := app sys in
  match ev with
  | KeyDown key =>
      match board sys with
      | None => mret (sys, [])
      | Some b =>
          r ← handleKeyDown BOARD_SIZE random (difficulty a) fuel key b;
          sys' ← commit fuel sys (foldl deliver a r.2) (Some r.1);
          mret (sys', r.2)
      end
  | ClickStart =>
      match gameState a with
      | Ready | GameOver =>
          sys' ← commit fuel sys (handleStartGame a) (board sys);
          mret (sys', [])
      | _ => mret (sys, [])
      end
  | ClickGameModes =>
      match gameState a with
      | Ready =>
          sys' ← commit fuel sys (setGameState ModeSelection a) (board sys);
          mret (sys', [])
      | _ => mret (sys, [])
      end
  | ClickDifficulty d =>
      match gameState a with
      | ModeSelection =>
          sys' ← commit fuel sys (handleSelectDifficulty d a) (board sys);
          mret (sys', [])
      | _ => mret (sys, [])
      end
  | ClickBack =>
      match gameState a with
      | ModeSelection =>
          sys' ← commit fuel sys (setGameState Ready a) (board sys);
          mret (sys', [])
      | _ => mret (sys, [])
      end
  end.

(** A sequence of events, with all the signals emitted on the way. *)
Fixpoint dispatchAll (fuel : nat) (evs : list Event) (sys : System)
    : Rand (System * list Signal) :=
  match evs with
  | [] => mret (sys, [])
  | ev :: evs' =>
      r ← dispatch fuel ev sys;
      r' ← dispatchAll fuel evs' r.1;
      mret (r'.1, r.2 ++ r'.2)
  end.
End Page.

(** ** Specification vocabulary *)

(** A cell of the board: both coordinates lie in [[0, BOARD_SIZE - 1]]. *)
Definition inBounds (BOARD_SIZE : Z) (p : Position) : Prop :=
  0 ≤ x p ≤ BOARD_SIZE - 1 ∧ 0 ≤ y p ≤ BOARD_SIZE - 1.

(** What [Math.random] promises: a number of [[0, 1)]. *)
Definition validDraws (random : nat → Q) : Prop :=
  ∀ n, (0 <= random n)%Q ∧ (random n < 1)%Q.

(** The cell one iteration of the rejection loop samples when [c] calls of
    [Math.random] have been made. *)
Definition sample (BOARD_SIZE : Z) (random : nat → Q) (c : nat) : Position :=
  {| x := Qfloor (random c * inject_Z BOARD_SIZE);
     y := Qfloor (random (S c) * inject_Z BOARD_SIZE) |}.

(** A source of randomness is fair when, from every point on, the rejection
    loop would eventually sample any given cell of the board. *)
Definition fair (BOARD_SIZE : Z) (random : nat → Q) : Prop :=
  ∀ c p, inBounds BOARD_SIZE p → ∃ k, sample BOARD_SIZE random (c + 2 * k) = p.

(** Every cell of the board, column by column. *)
Definition allCells (BOARD_SIZE : Z) : list Position :=
  i ← seq 0 (Z.to_nat BOARD_SIZE);
  (λ j, {| x := Z.of_nat i; y := Z.of_nat j |}) <$> seq 0 (Z.to_nat BOARD_SIZE).

(** The seed a move into cell [p] collides with: the first one of the array
    at that cell, as [findIndex] finds it. *)
Definition collidedSeedAt (l : list Seed) (p : Position) : option Seed :=
  Array.get l (Array.findIndex (λ seed, samePosition (position seed) p) l).

(** The invariant of a board in play under difficulty [d]. *)
Record boardInv (BOARD_SIZE : Z) (d : Difficulty) (b : Board) : Prop := {
  inv_bird : inBounds BOARD_SIZE (birdPosition b);
  inv_seeds : ∀ s, s ∈ seeds b → inBounds BOARD_SIZE (position s);
  inv_distinct : NoDup (birdPosition b :: (position <$> seeds b));
  inv_ids : NoDup (id <$> seeds b);
  inv_fresh : ∀ s, s ∈ seeds b → 0 ≤ id s < seedIdCounter b;
  inv_count : Z.of_nat (length (seeds b)) = initialSeeds (difficultySettings d)
}.

(** The four outcomes of a key press, as a relation between the board
    before, the board after and the signals emitted: the key is not an arrow
    key; the candidate cell is free; it holds a hard seed; it holds a seed
    that is eaten and replaced at a sampled cell [p]. *)
Inductive keyStep (BOARD_SIZE : Z) (random : nat → Q) (key : string) (b : Board)
    : Board → list Signal → Prop :=
| step_ignored :
    candidate BOARD_SIZE key (birdPosition b) = None →
    keyStep BOARD_SIZE random key b b []
| step_move newPos :
    candidate BOARD_SIZE key (birdPosition b) = Some newPos →
    newPos ∉ (position <$> seeds b) →
    keyStep BOARD_SIZE random key b
      {| birdPosition := newPos;
         seeds := seeds b;
         seedIdCounter := seedIdCounter b |} []
| step_hazard newPos s :
    candidate BOARD_SIZE key (birdPosition b) = Some newPos →
    collidedSeedAt (seeds b) newPos = Some s →
    type s = Hard →
    keyStep BOARD_SIZE random key b b [onGameOver]
| step_collect newPos s l1 l2 k ty :
    candidate BOARD_SIZE key (birdPosition b) = Some newPos →
    collidedSeedAt (seeds b) newPos = Some s →
    seeds b = l1 ++ s :: l2 →
    position s = newPos →
    (∀ s', s' ∈ l1 → position s' ≠ newPos) →
    type s ≠ Hard →
    sample BOARD_SIZE random k ∉ newPos :: (position <$> l1 ++ l2) →
    keyStep BOARD_SIZE random key b
      {| birdPosition := newPos;
         seeds := (l1 ++ l2) ++
           [{| id := seedIdCounter b;
               position := sample BOARD_SIZE random k;
               type := ty |}];
         seedIdCounter := seedIdCounter b + 1 |}
      [if decide (type s = Coin) then onCoinCollect else onScore].

(** The boards a game under difficulty [d] can be in: what [resetGame]
    returns, and what [handleKeyDown] makes of a reachable board. *)
Inductive reachable (BOARD_SIZE : Z) (random : nat → Q) (d : Difficulty)
    : Board → Prop :=
| reachable_reset fuel c b c' :
    resetGame BOARD_SIZE random d fuel c = Some (b, c') →
    reachable BOARD_SIZE random d b
| reachable_key fuel key c b b' signals c' :
    reachable BOARD_SIZE random d b →
    handleKeyDown BOARD_SIZE random d fuel key b c = Some ((b', signals), c') →
    reachable BOARD_SIZE random d b'.

(** The page keeps a board exactly while a game is being played. *)
Definition mountedIffPlaying (sys : System) : Prop :=
  is_Some (board sys) ↔ gameState (app sys) = Playing.

(** The stored total is the string of the total in memory. *)
Definition persisted (sys : System) : Prop :=
  localStorage sys !! "totalPoints" = Some (Js.ToString (totalPoints (app sys))).

(** A session: the start button, then key presses. *)
Definition session (keys : list string) : list Event :=
  ClickStart :: (KeyDown <$> keys).

(** ** A source of randomness to run the game with

    On a board of 20 by 20 cells: draw [2 j] is the column and draw
    [2 j + 1] the row of cell number [j], for the 400 cells in turn, then
    one more draw, and over again.  The odd period makes the source fair
    wherever the rejection loop starts to read it. *)
Definition roundRobin (n : nat) : Q :=
  let r := (n mod 801)%nat in
  let v :=
    if (r =? 800)%nat then 0%nat
    else if Nat.even r then ((r / 2) mod 20)%nat
    else ((r / 2) / 20)%nat in
  Z.of_nat v # 20.


(** ** Concrete games, to run the model on *)

(** A run of key presses on a board. *)
Fixpoint pressKeys (BOARD_SIZE : Z) (random : nat → Q) (d : Difficulty)
    (fuel : nat) (keys : list string) (b : Board) : Rand Board :=
  match keys with
  | [] => mret b
  | key :: keys' =>
      r ← handleKeyDown BOARD_SIZE random d fuel key b;
      pressKeys BOARD_SIZE random d fuel keys' r.1
  end.

(** What a run returned, or [default] when it has not returned. *)
Definition returned {A : Type} (default : A) (r : option (A * nat)) : A * nat :=
  match r with
  | Some v => v
  | None => (default, 0%nat)
  end.

Definition emptyBoard : Board :=
  {| birdPosition := {| x := 0; y := 0 |}; seeds := []; seedIdCounter := 0 |}.

(** The board of a game of normal difficulty on 20 by 20 cells with the
    round-robin source, started when [c] numbers have been drawn, after the
    given key presses. *)
Definition demoBoard (c : nat) (keys : list string) : Board :=
  (returned emptyBoard
     ((b ← resetGame 20 roundRobin normal 1000;
       pressKeys 20 roundRobin normal 1000 keys b) c)).1.

(** Two sessions on that page, each without its last key press: the first
    eats five good seeds and stops below a hard seed, the second collects
    three coins and stops to the right of a hard seed. *)
Definition firstSessionKeys : list string :=
  replicate 9 "ArrowUp" ++
  ["ArrowRight"; "ArrowUp"; "ArrowRight"; "ArrowDown"; "ArrowRight";
   "ArrowDown"; "ArrowRight"; "ArrowUp"; "ArrowDown"; "ArrowDown"] ++
  replicate 5 "ArrowRight".

Definition secondSessionKeys : list string :=
  replicate 6 "ArrowLeft" ++
  ["ArrowUp"; "ArrowDown"; "ArrowDown"; "ArrowDown"; "ArrowUp"].

(** The page on its first visit: nothing is stored. *)
Definition firstVisit : System := mountApp ∅.

Definition runPage (evs : list Event) (sys : System) (c : nat)
    : System * list Signal * nat :=
  returned (sys, []) (dispatchAll 20 roundRobin 1000 evs sys c).

(** The first session just before and after its last key press. *)
Definition belowHardSeed : System * list Signal * nat :=
  runPage (session firstSessionKeys) firstVisit 0.

Definition afterFirstSession : System * list Signal * nat :=
  runPage (session (firstSessionKeys ++ ["ArrowUp"])) firstVisit 0.

Definition afterSecondSession : System * list Signal * nat :=
  runPage (session (secondSessionKeys ++ ["ArrowLeft"]))
          afterFirstSession.1.1 afterFirstSession.2.

(** ** The pages a visit can reach *)

(** The page after its first render, with [stored] in the browser's
    storage, and after any event that has been handled since. *)
Inductive reachablePage (BOARD_SIZE : Z) (random : nat → Q) (stored : Storage)
    : System → Prop :=
| page_first_render :
    reachablePage BOARD_SIZE random stored (mountApp stored)
| page_event fuel ev sys sys' signals c c' :
    reachablePage BOARD_SIZE random stored sys →
    dispatch BOARD_SIZE random fuel ev sys c = Some ((sys', signals), c') →
    reachablePage BOARD_SIZE random stored sys'.

(** What holds of every page: a board is mounted exactly during a game; the
    stored total is the total in memory; the coins are among the points of
    the score; the board has the seeds of the session's difficulty and has
    handed out one identifier per point scored; the total is in canonical
    form. *)
Record pageInv (sys : System) : Prop := {
  page_mounted : mountedIffPlaying sys;
  page_persisted : persisted sys;
  page_counts : 0 ≤ coins (app sys) ≤ score (app sys);
  page_counter : ∀ b, board sys = Some b →
    seedIdCounter b
      = initialSeeds (difficultySettings (difficulty (app sys)))
        + score (app sys) ∧
    Z.of_nat (length (seeds b))
      = initialSeeds (difficultySettings (difficulty (app sys)));
  page_canonical : Js.canonical (totalPoints (app sys))
}.

(** The number a decimal numeral denotes, read from its most significant
    digit with [acc] standing for the digits already read. *)
Fixpoint uintValue (d : Decimal.uint) (acc : Z) : Z :=
  match d with
  | Decimal.Nil => acc
  | Decimal.D0 d => uintValue d (acc * 10 + 0)
  | Decimal.D1 d => uintValue d (acc * 10 + 1)
  | Decimal.D2 d => uintValue d (acc * 10 + 2)
  | Decimal.D3 d => uintValue d (acc * 10 + 3)
  | Decimal.D4 d => uintValue d (acc * 10 + 4)
  | Decimal.D5 d => uintValue d (acc * 10 + 5)
  | Decimal.D6 d => uintValue d (acc * 10 + 6)
  | Decimal.D7 d => uintValue d (acc * 10 + 7)
  | Decimal.D8 d => uintValue d (acc * 10 + 8)
  | Decimal.D9 d => uintValue d (acc * 10 + 9)
  end.

Definition uintChars (d : Decimal.uint) : list ascii :=
  list_ascii_of_string (NilEmpty.string_of_uint d).

Definition digitChars : list ascii :=
  ["0"; "1"; "2"; "3"; "4"; "5"; "6"; "7"; "8"; "9"]%char.

(** ** GameBoard.tsx: the rectangles of the sprites

    The bird and the seeds are absolutely positioned children of one
    container; their [style] objects give a rectangle each, in pixels of
    the container.  [CELL_SIZE] comes from [constants.ts] like [BOARD_SIZE]
    and is taken to be a whole number of pixels, so that the products and
    sums below are exact in floating point. *)
Record Rect := mkRect {
  rect_left : Q;
  rect_top : Q;
  rect_width : Q;
  rect_height : Q
}.

Section Render.
Variable CELL_SIZE : Z.

(** The [style] of the bird's [div]. *)
Definition birdStyle (birdPosition : Position) : Rect :=
  {| rect_width := inject_Z CELL_SIZE;
     rect_height := inject_Z CELL_SIZE;
     rect_left := inject_Z (x birdPosition) * inject_Z CELL_SIZE;
     rect_top := inject_Z (y birdPosition) * inject_Z CELL_SIZE |}.

(** The [style] constant of [seeds.map]. *)
Definition seedStyle (seed : Seed) : Rect :=
  {| rect_width := inject_Z CELL_SIZE * (1 # 2);
     rect_height := inject_Z CELL_SIZE * (1 # 2);
     rect_left :=
       inject_Z (x (position seed)) * inject_Z CELL_SIZE +
       inject_Z CELL_SIZE * (1 # 4);
     rect_top :=
       inject_Z (y (position seed)) * inject_Z CELL_SIZE +
       inject_Z CELL_SIZE * (1 # 4) |}.

(** The square of the grid that cell [p] stands for. *)
Definition cellRect (p : Position) : Rect := birdStyle p.
End Render.

(** Two rectangles share a point of positive area. *)
Definition overlap (r s : Rect) : Prop :=
  (rect_left r < rect_left s + rect_width s)%Q ∧
  (rect_left s < rect_left r + rect_width r)%Q ∧
  (rect_top r < rect_top s + rect_height s)%Q ∧
  (rect_top s < rect_top r + rect_height r)%Q.

(** Rectangle [r] lies within rectangle [s]. *)
Definition within (r s : Rect) : Prop :=
  (rect_left s <= rect_left r)%Q ∧
  (rect_left r + rect_width r <= rect_left s + rect_width s)%Q ∧
  (rect_top s <= rect_top r)%Q ∧
  (rect_top r + rect_height r <= rect_top s + rect_height s)%Q.

(** ** More concrete games *)

(** What a key press on a board returned. *)
Definition pressed (key : string) (b : Board) (c : nat)
    : Board * list Signal * nat :=
  returned (b, []) (handleKeyDown 20 roundRobin normal 1000 key b c).

(** The eighth press of "up" of the first game, which eats a good seed, and
    the fifth press of "left" of the second, which collects a coin. *)
Definition seedPress : Board * list Signal * nat :=
  pressed "ArrowUp" (demoBoard 0 (replicate 7 "ArrowUp")) 124.

Definition coinPress : Board * list Signal * nat :=
  pressed "ArrowLeft" (demoBoard 141 (replicate 4 "ArrowLeft")) 261.

(** The first visit after the start button, and after a game of hard
    difficulty was chosen and started. *)
Definition started : System * list Signal * nat :=
  runPage [ClickStart] firstVisit 0.


(** ** Facts about the array helpers *)

Lemma samePosition_true (a b : Position) : samePosition a b = true ↔ a = b.
Proof.
  unfold samePosition. destruct a as [ax ay], b as [bx b_y]; simpl.
  rewrite andb_true_iff, !Z.eqb_eq. split.
  - intros [-> ->]. reflexivity.
  - intros [= -> ->]. split; reflexivity.
Qed.

Lemma samePosition_false (a b : Position) : samePosition a b = false ↔ a ≠ b.
Proof.
  rewrite <- samePosition_true. destruct (samePosition a b); split; congruence.
Qed.

Lemma some_true {A} (p : A → bool) (l : list A) :
  Array.some p l = true ↔ ∃ a, a ∈ l ∧ p a = true.
Proof.
  induction l as [|a l IH]; simpl.
  - split; [discriminate|]. intros (a & Ha & _). inversion Ha.
  - destruct (p a) eqn:Hp.
    + split; [|reflexivity]. intros _. exists a. split; [left|assumption].
    + rewrite IH. split; intros (a' & Ha' & Hp').
      * exists a'. split; [right|]; assumption.
      * inversion Ha'; subst; [congruence|]. exists a'. split; assumption.
Qed.

Lemma some_samePosition_false (q : Position) (l : list Position) :
  Array.some (λ p, samePosition p q) l = false ↔ q ∉ l.
Proof.
  split.
  - intros Hs Hin.
    assert (Array.some (λ p, samePosition p q) l = true) as Ht; [|congruence].
    apply some_true. exists q. split; [assumption|]. apply samePosition_true. reflexivity.
  - intros Hnin. destruct (Array.some _ l) eqn:Hs; [|reflexivity].
    apply some_true in Hs as (a & Ha & Hp). apply samePosition_true in Hp. subst.
    contradiction.
Qed.

Lemma findIndexFrom_none {A} (p : A → bool) (l : list A) (i : Z) :
  0 ≤ i → (Array.findIndexFrom p i l = -1 ↔ ∀ a, a ∈ l → p a = false).
Proof.
  revert i. induction l as [|a l IH]; intros i Hi; simpl.
  - split; [|reflexivity]. intros _ a Ha. inversion Ha.
  - destruct (p a) eqn:Hp.
    + split; [lia|]. intros H. specialize (H a (list_elem_of_here _ _)). congruence.
    + rewrite IH by lia. split; intros H a' Ha'.
      * inversion Ha'; subst; [assumption|]. apply H. assumption.
      * apply H. right. assumption.
Qed.

(** A successful [findIndex] splits the array around the first match. *)
Lemma findIndexFrom_split {A} (p : A → bool) (l : list A) (i j : Z) :
  0 ≤ i → Array.findIndexFrom p i l = j → j ≠ -1 →
  ∃ l1 a l2, l = l1 ++ a :: l2 ∧ j = i + Z.of_nat (length l1) ∧
             p a = true ∧ ∀ a', a' ∈ l1 → p a' = false.
Proof.
  revert i. induction l as [|a l IH]; intros i Hi Hf Hj; simpl in Hf.
  - congruence.
  - destruct (p a) eqn:Hp.
    + exists [], a, l. simpl. repeat split; [lia|assumption|].
      intros a' Ha'. inversion Ha'.
    + destruct (IH (i + 1)) as (l1 & a0 & l2 & -> & -> & Hp0 & Hl1); [lia|assumption..|].
      exists (a :: l1), a0, l2. simpl. repeat split; [lia|assumption|].
      intros a' Ha'. inversion Ha'; subst; [assumption|]. apply Hl1. assumption.
Qed.

Lemma findIndexFrom_app {A} (p : A → bool) (l1 l2 : list A) (a : A) (i : Z) :
  (∀ a', a' ∈ l1 → p a' = false) → p a = true →
  Array.findIndexFrom p i (l1 ++ a :: l2) = i + Z.of_nat (length l1).
Proof.
  revert i. induction l1 as [|a1 l1 IH]; intros i Hl1 Hp; simpl.
  - rewrite Hp. lia.
  - rewrite (Hl1 a1) by left. rewrite IH; [lia| |assumption].
    intros a' Ha'. apply Hl1. right. assumption.
Qed.

Lemma filterFrom_after {A} (l : list A) (i k : Z) :
  i < k → Array.filterFrom (λ _ index, negb (index =? i)) k l = l.
Proof.
  revert k. induction l as [|b l IHl]; intros k Hk; simpl; [reflexivity|].
  destruct (Z.eqb_spec k i); [lia|]. simpl. f_equal. apply IHl. lia.
Qed.

(** Filtering out one index removes exactly the element at that index. *)
Lemma filterFrom_remove {A} (l1 l2 : list A) (a : A) (i j : Z) :
  j = i + Z.of_nat (length l1) →
  Array.filterFrom (λ _ index, negb (index =? j)) i (l1 ++ a :: l2) = l1 ++ l2.
Proof.
  revert i. induction l1 as [|a1 l1 IH]; intros i Hj; simpl in *.
  - destruct (Z.eqb_spec i j); [|lia]. simpl. apply filterFrom_after. lia.
  - destruct (Z.eqb_spec i j); [lia|]. simpl. f_equal. apply IH. lia.
Qed.

Lemma get_middle {A} (l1 l2 : list A) (a : A) :
  Array.get (l1 ++ a :: l2) (Z.of_nat (length l1)) = Some a.
Proof.
  unfold Array.get. destruct (Z.ltb_spec (Z.of_nat (length l1)) 0); [lia|].
  rewrite Nat2Z.id. apply list_lookup_middle. reflexivity.
Qed.

Lemma allCells_inBounds B p : p ∈ allCells B → inBounds B p.
Proof.
  unfold allCells. rewrite list_elem_of_bind. intros (i & Hp & Hi).
  apply list_elem_of_fmap in Hp as (j & -> & Hj).
  apply elem_of_seq in Hi, Hj. unfold inBounds; simpl. lia.
Qed.

Lemma allCells_length B : length (allCells B) = (Z.to_nat B * Z.to_nat B)%nat.
Proof.
  unfold allCells.
  assert (∀ (l : list nat) (m : nat),
    length (i ← l; (λ j, {| x := Z.of_nat i; y := Z.of_nat j |}) <$> seq 0 m)
    = (length l * m)%nat) as Hlen.
  { induction l as [|i l IH]; intros m; simpl; [reflexivity|].
    rewrite length_app, length_fmap, length_seq, IH. reflexivity. }
  rewrite Hlen, length_seq. reflexivity.
Qed.

Lemma allCells_NoDup B : NoDup (allCells B).
Proof.
  unfold allCells. apply NoDup_bind.
  - intros i1 i2 p _ _ H1 H2.
    apply list_elem_of_fmap in H1 as (j1 & -> & _).
    apply list_elem_of_fmap in H2 as (j2 & [= Hi _] & _). lia.
  - intros i _. apply NoDup_fmap_2; [|apply NoDup_seq].
    intros j1 j2 [= H]. lia.
  - apply NoDup_seq.
Qed.

(** Fewer occupied positions than cells leave a cell of the board free. *)
Lemma free_cell_exists B (occupied : list Position) :
  0 < B → Z.of_nat (length occupied) < B * B →
  ∃ p, inBounds B p ∧ p ∉ occupied.
Proof.
  intros HB Hlen.
  destruct (decide (Forall (λ p, p ∈ occupied) (allCells B))) as [Hall|Hnot].
  - exfalso.
    assert (allCells B ⊆+ occupied) as Hsub.
    { apply NoDup_submseteq; [apply allCells_NoDup|].
      intros p Hp. rewrite Forall_forall in Hall. apply Hall. assumption. }
    apply submseteq_length in Hsub. rewrite allCells_length in Hsub.
    assert (Z.of_nat (Z.to_nat B * Z.to_nat B) = B * B) by lia. lia.
  - apply not_Forall_Exists in Hnot; [|intros p; apply _].
    apply Exists_exists in Hnot as (p & Hp & Hfree).
    exists p. split; [apply allCells_inBounds|]; assumption.
Qed.

Section GameBoardFacts.
Variable BOARD_SIZE : Z.
Variable random : nat → Q.

#[local] Abbreviation sample := (sample BOARD_SIZE random).
#[local] Abbreviation getRandomPosition :=
  (getRandomPosition BOARD_SIZE random).

Lemma randomCoordinate_range (c : nat) :
  0 < BOARD_SIZE → validDraws random →
  0 ≤ Qfloor (random c * inject_Z BOARD_SIZE) ≤ BOARD_SIZE - 1.
Proof.
  intros HB Hv. destruct (Hv c) as [H0 H1].
  assert (0 < inject_Z BOARD_SIZE)%Q as HBq.
  { change 0%Q with (inject_Z 0). rewrite <- Zlt_Qlt. assumption. }
  split.
  - rewrite <- (Qfloor_Z 0). apply Qfloor_resp_le. simpl.
    apply Qmult_le_0_compat; [assumption|]. apply Qlt_le_weak. assumption.
  - assert (Qfloor (random c * inject_Z BOARD_SIZE) < BOARD_SIZE); [|lia].
    rewrite Zlt_Qlt. eapply Qle_lt_trans; [apply Qfloor_le|].
    rewrite <- (Qmult_1_l (inject_Z BOARD_SIZE)) at 2.
    apply Qmult_lt_compat_r; assumption.
Qed.

Lemma sample_inBounds (c : nat) :
  0 < BOARD_SIZE → validDraws random → inBounds BOARD_SIZE (sample c).
Proof.
  intros HB Hv. split; simpl; apply randomCoordinate_range; assumption.
Qed.

(** One iteration of the [do ... while] loop. *)
Lemma getRandomPosition_step (fuel : nat) (occupied : list Position) (c : nat) :
  getRandomPosition (S fuel) occupied c =
    if Array.some (λ p, samePosition p (sample c)) occupied
    then getRandomPosition fuel occupied (S (S c))
    else Some (sample c, S (S c)).
Proof.
  simpl. unfold mbind, Rand_bind, randomCoordinate, mbind, Rand_bind; simpl.
  fold (sample c). destruct (Array.some _ occupied); reflexivity.
Qed.

(** What the loop returns: the first sampled cell that is not occupied. *)
Lemma getRandomPosition_sound (fuel : nat) (occupied : list Position)
    (c c' : nat) (p : Position) :
  getRandomPosition fuel occupied c = Some (p, c') →
  (p ∉ occupied) ∧
  ∃ k, (k < fuel)%nat ∧ p = sample (c + 2 * k) ∧ c' = (c + 2 * k + 2)%nat ∧
       ∀ j, (j < k)%nat → sample (c + 2 * j) ∈ occupied.
Proof.
  revert c. induction fuel as [|fuel IH]; intros c; [discriminate|].
  rewrite getRandomPosition_step.
  destruct (Array.some _ occupied) eqn:Hocc.
  - intros Hrec. destruct (IH _ Hrec) as (Hfree & k & Hk & -> & -> & Hbefore).
    split; [assumption|]. exists (S k).
    replace (c + 2 * S k)%nat with (S (S c) + 2 * k)%nat by lia.
    repeat split; [lia..|].
    intros [|j] Hj.
    + replace (c + 2 * 0)%nat with c by lia.
      apply some_true in Hocc as (q & Hq & Heq).
      apply samePosition_true in Heq. subst. assumption.
    + replace (c + 2 * S j)%nat with (S (S c) + 2 * j)%nat by lia.
      apply Hbefore. lia.
  - intros [= <- <-]. split; [apply some_samePosition_false; assumption|].
    exists 0%nat. replace (c + 2 * 0)%nat with c by lia.
    repeat split; [lia..|]. intros j Hj. lia.
Qed.

(** The loop returns as soon as the source yields a free cell, and more
    fuel does not change what it returns. *)
Lemma getRandomPosition_terminates (occupied : list Position) (k : nat) :
  ∀ c, sample (c + 2 * k) ∉ occupied →
  ∃ p c', ∀ fuel, (k < fuel)%nat →
    getRandomPosition fuel occupied c = Some (p, c').
Proof.
  induction k as [|k IH]; intros c Hfree.
  - replace (c + 2 * 0)%nat with c in Hfree by lia.
    exists (sample c), (S (S c)). intros [|fuel] Hf; [lia|].
    rewrite getRandomPosition_step.
    apply some_samePosition_false in Hfree. rewrite Hfree. reflexivity.
  - destruct (Array.some (λ p, samePosition p (sample c)) occupied) eqn:Hocc.
    + replace (c + 2 * S k)%nat with (S (S c) + 2 * k)%nat in Hfree by lia.
      destruct (IH _ Hfree) as (p & c' & Hrun). exists p, c'.
      intros [|fuel] Hf; [lia|].
      rewrite getRandomPosition_step, Hocc. apply Hrun. lia.
    + exists (sample c), (S (S c)). intros [|fuel] Hf; [lia|].
      rewrite getRandomPosition_step, Hocc. reflexivity.
Qed.

(** With a fair source, the loop returns whenever a cell is free. *)
Lemma getRandomPosition_fair (occupied : list Position) (c : nat) :
  0 < BOARD_SIZE → fair BOARD_SIZE random →
  Z.of_nat (length occupied) < BOARD_SIZE * BOARD_SIZE →
  ∃ f0 p c', ∀ fuel, (f0 ≤ fuel)%nat →
    getRandomPosition fuel occupied c = Some (p, c').
Proof.
  intros HB Hfair Hlen.
  destruct (free_cell_exists _ _ HB Hlen) as (q & Hq & Hfree).
  destruct (Hfair c q Hq) as (k & Hk).
  destruct (getRandomPosition_terminates occupied k c) as (p & c' & Hrun).
  { rewrite Hk. assumption. }
  exists (S k), p, c'. intros fuel Hf. apply Hrun. lia.
Qed.

Section WithDifficulty.
Variable d : Difficulty.

#[local] Abbreviation getNewSeedType := (getNewSeedType random d).
#[local] Abbreviation resetLoop :=
  (resetLoop BOARD_SIZE random d).
#[local] Abbreviation resetGame :=
  (resetGame BOARD_SIZE random d).
#[local] Abbreviation handleKeyDown :=
  (handleKeyDown BOARD_SIZE random d).

(** Drawing a seed type is one call of [Math.random] and always returns. *)
Lemma getNewSeedType_total (c : nat) :
  ∃ ty, getNewSeedType c = Some (ty, S c).
Proof.
  unfold getNewSeedType, mbind, Rand_bind; simpl.
  destruct (Qlt_le_dec _ _); [eexists; reflexivity|].
  destruct (Qlt_le_dec _ _); eexists; reflexivity.
Qed.

Lemma resetLoop_step (fuel n : nat) (i : Z) (newSeeds : list Seed)
    (existing : list Position) (c : nat) :
  resetLoop fuel (S n) i newSeeds existing c =
    match getRandomPosition fuel existing c with
    | Some (position, c1) =>
        match getNewSeedType c1 with
        | Some (ty, c2) =>
            resetLoop fuel n (i + 1)
              (newSeeds ++ [{| id := i; position := position; type := ty |}])
              (existing ++ [position]) c2
        | None => None
        end
    | None => None
    end.
Proof.
  simpl. unfold mbind at 1, Rand_bind at 1.
  destruct (getRandomPosition fuel existing c) as [[position c1]|];
    [|reflexivity].
  unfold mbind at 1, Rand_bind at 1.
  destruct (getNewSeedType c1) as [[ty c2]|]; reflexivity.
Qed.

(** The loop of [resetGame] extends a well-formed placement into a
    well-formed placement with [n] more seeds, each at a sampled cell; [P]
    is any property of the sampled cells. *)
Lemma resetLoop_sound (P : Position → Prop) (fuel n : nat) (bird : Position) :
  (∀ k, P (sample k)) →
  ∀ (newSeeds res : list Seed) (c c' : nat),
  resetLoop fuel n (Z.of_nat (length newSeeds)) newSeeds
            (bird :: (position <$> newSeeds)) c = Some (res, c') →
  NoDup (bird :: (position <$> newSeeds)) →
  (∀ s, s ∈ newSeeds → P (position s)) →
  id <$> newSeeds = Z.of_nat <$> seq 0 (length newSeeds) →
  length res = (length newSeeds + n)%nat ∧
  NoDup (bird :: (position <$> res)) ∧
  (∀ s, s ∈ res → P (position s)) ∧
  id <$> res = Z.of_nat <$> seq 0 (length res).
Proof.
  intros HP. induction n as [|n IH]; intros newSeeds res c c' Hrun Hnd Hin Hids.
  - injection Hrun as <- <-. split_and!; [lia|assumption..].
  - rewrite resetLoop_step in Hrun.
    destruct (getRandomPosition fuel _ c) as [[p c1]|] eqn:Hp; [|discriminate].
    destruct (getNewSeedType c1) as [[ty c2]|] eqn:Hty; [|discriminate].
    apply getRandomPosition_sound in Hp as (Hfree & k & _ & Hk & _ & _).
    set (s := {| id := Z.of_nat (length newSeeds); position := p; type := ty |}) in *.
    assert (bird :: (position <$> newSeeds ++ [s])
            = (bird :: (position <$> newSeeds)) ++ [p]) as Hex.
    { rewrite fmap_app. reflexivity. }
    destruct (IH (newSeeds ++ [s]) res c2 c') as (Hlen & Hnd' & Hin' & Hids').
    + rewrite Hex, length_app. simpl.
      replace (Z.of_nat (length newSeeds + 1)) with (Z.of_nat (length newSeeds) + 1)
        by lia.
      assumption.
    + rewrite Hex. apply NoDup_app. split; [assumption|]. split.
      * intros q Hq Hq'. apply list_elem_of_singleton in Hq'. subst. contradiction.
      * apply NoDup_singleton.
    + intros s' Hs'. apply elem_of_app in Hs' as [Hs'|Hs']; [apply Hin; assumption|].
      apply list_elem_of_singleton in Hs'. subst s'. simpl. rewrite Hk. apply HP.
    + rewrite fmap_app, Hids, length_app. simpl.
      rewrite seq_app, fmap_app. reflexivity.
    + rewrite length_app in Hlen. simpl in Hlen.
      split_and!; [lia|assumption..].
Qed.

(** With a fair source and room on the board, the loop returns. *)
Lemma resetLoop_total (n : nat) :
  0 < BOARD_SIZE → fair BOARD_SIZE random →
  ∀ (i : Z) (newSeeds : list Seed) (existing : list Position) (c : nat),
  Z.of_nat (length existing) + Z.of_nat n ≤ BOARD_SIZE * BOARD_SIZE →
  ∃ f0 res c', ∀ fuel, (f0 ≤ fuel)%nat →
    resetLoop fuel n i newSeeds existing c = Some (res, c').
Proof.
  intros HB Hfair. induction n as [|n IH]; intros i newSeeds existing c Hroom.
  - exists 0%nat, newSeeds, c. intros fuel _. reflexivity.
  - destruct (getRandomPosition_fair existing c HB Hfair) as (f1 & p & c1 & Hp); [lia|].
    destruct (getNewSeedType_total c1) as (ty & Hty).
    destruct (IH (i + 1)
                (newSeeds ++ [{| id := i; position := p; type := ty |}])
                (existing ++ [p]) (S c1)) as (f2 & res & c' & Hrest).
    { rewrite length_app. simpl. lia. }
    exists (f1 `max` f2)%nat, res, c'. intros fuel Hf.
    rewrite resetLoop_step, Hp, Hty by lia. apply Hrest. lia.
Qed.

(** *** Collisions *)

Lemma collidedSeedAt_Some (l : list Seed) (p : Position) (s : Seed) :
  collidedSeedAt l p = Some s →
  ∃ l1 l2, l = l1 ++ s :: l2 ∧ position s = p ∧
           (∀ s', s' ∈ l1 → position s' ≠ p) ∧
           Array.findIndex (λ seed, samePosition (position seed) p) l
             = Z.of_nat (length l1).
Proof.
  unfold collidedSeedAt. intros Hget.
  destruct (decide (Array.findIndex (λ seed, samePosition (position seed) p) l = -1))
    as [Hi|Hi].
  { rewrite Hi in Hget. discriminate. }
  destruct (findIndexFrom_split _ l 0 _ (Z.le_refl 0) eq_refl Hi)
    as (l1 & a & l2 & Hl & Hidx & Hp & Hl1).
  unfold Array.findIndex in *. rewrite Hidx, Z.add_0_l in Hget |- *.
  subst l. rewrite get_middle in Hget. injection Hget as <-.
  exists l1, l2. split_and!; [reflexivity|apply samePosition_true; assumption| |lia].
  intros s' Hs'. apply samePosition_false, Hl1. assumption.
Qed.

Lemma collidedSeedAt_None (l : list Seed) (p : Position) :
  collidedSeedAt l p = None ↔
  Array.findIndex (λ seed, samePosition (position seed) p) l = -1.
Proof.
  split.
  - intros Hnone.
    destruct (decide (Array.findIndex (λ seed, samePosition (position seed) p) l = -1))
      as [Hi|Hi]; [assumption|exfalso].
    destruct (findIndexFrom_split _ l 0 _ (Z.le_refl 0) eq_refl Hi)
      as (l1 & a & l2 & Hl & Hidx & _).
    unfold collidedSeedAt, Array.findIndex in *. rewrite Hidx, Z.add_0_l in Hnone.
    subst l. rewrite get_middle in Hnone. discriminate.
  - intros Hi. unfold collidedSeedAt. rewrite Hi. reflexivity.
Qed.

Lemma collidedSeedAt_free (l : list Seed) (p : Position) :
  collidedSeedAt l p = None ↔ p ∉ (position <$> l).
Proof.
  rewrite collidedSeedAt_None. unfold Array.findIndex.
  rewrite findIndexFrom_none by lia. split.
  - intros Hall Hin. apply list_elem_of_fmap in Hin as (s & -> & Hs).
    specialize (Hall s Hs). apply samePosition_false in Hall. congruence.
  - intros Hnin s Hs. apply samePosition_false. intros Heq. apply Hnin.
    apply list_elem_of_fmap. exists s. split; [symmetry|]; assumption.
Qed.

(** What the board is after a seed was eaten at [newPos] and replaced. *)
Lemma handleKeyDown_unfold (fuel : nat) (key : string) (b : Board) (c : nat) :
  handleKeyDown fuel key b c =
    match candidate BOARD_SIZE key (birdPosition b) with
    | None => Some ((b, []), c)
    | Some newPos =>
        match collidedSeedAt (seeds b) newPos with
        | None =>
            Some (({| birdPosition := newPos;
                      seeds := seeds b;
                      seedIdCounter := seedIdCounter b |}, []), c)
        | Some s =>
            if decide (type s = Hard) then Some ((b, [onGameOver]), c)
            else
              let rest :=
                Array.filter
                  (λ _ index, negb (index =? Array.findIndex
                     (λ seed, samePosition (position seed) newPos) (seeds b)))
                  (seeds b) in
              match getRandomPosition fuel (newPos :: (position <$> rest)) c with
              | None => None
              | Some (p, c1) =>
                  match getNewSeedType c1 with
                  | None => None
                  | Some (ty, c2) =>
                      Some (({| birdPosition := newPos;
                                seeds := rest ++
                                  [{| id := seedIdCounter b;
                                      position := p;
                                      type := ty |}];
                                seedIdCounter := seedIdCounter b + 1 |},
                             [if decide (type s = Coin) then onCoinCollect
                              else onScore]), c2)
                  end
              end
        end
    end.
Proof.
  unfold handleKeyDown.
  destruct (candidate BOARD_SIZE key (birdPosition b)) as [newPos|]; [|reflexivity].
  destruct (collidedSeedAt (seeds b) newPos) as [s|] eqn:Hs.
  - destruct (collidedSeedAt_Some _ _ _ Hs) as (l1 & l2 & _ & _ & _ & Hidx).
    unfold collidedSeedAt in Hs. rewrite Hs.
    destruct (Z.eqb_spec (Array.findIndex
      (λ seed, samePosition (position seed) newPos) (seeds b)) (-1)) as [E|_]; [lia|].
    destruct (type s) eqn:Hty; simpl; try reflexivity;
      unfold mbind, Rand_bind;
      destruct (getRandomPosition fuel _ c) as [[p c1]|]; try reflexivity;
      destruct (getNewSeedType c1) as [[nt c2]|]; reflexivity.
  - apply collidedSeedAt_None in Hs. rewrite Hs. reflexivity.
Qed.

(** *** More fuel changes nothing *)

Lemma getRandomPosition_mono (fuel fuel' : nat) (occupied : list Position)
    (c : nat) (r : Position * nat) :
  getRandomPosition fuel occupied c = Some r → (fuel ≤ fuel')%nat →
  getRandomPosition fuel' occupied c = Some r.
Proof.
  revert fuel' c. induction fuel as [|fuel IH]; intros fuel' c Hrun Hle; [discriminate|].
  destruct fuel' as [|fuel']; [lia|].
  rewrite getRandomPosition_step in Hrun |- *.
  destruct (Array.some _ occupied); [|assumption].
  apply IH; [assumption|lia].
Qed.

Lemma resetLoop_mono (fuel fuel' n : nat) :
  (fuel ≤ fuel')%nat →
  ∀ (i : Z) (newSeeds : list Seed) (existing : list Position) (c : nat) r,
  resetLoop fuel n i newSeeds existing c = Some r →
  resetLoop fuel' n i newSeeds existing c = Some r.
Proof.
  intros Hle. induction n as [|n IH]; intros i newSeeds existing c r Hrun;
    [assumption|].
  rewrite resetLoop_step in Hrun |- *.
  destruct (getRandomPosition fuel existing c) as [[p c1]|] eqn:Hp; [|discriminate].
  rewrite (getRandomPosition_mono _ _ _ _ _ Hp Hle).
  destruct (getNewSeedType c1) as [[ty c2]|]; [|discriminate].
  apply IH. assumption.
Qed.

Lemma resetGame_mono (fuel fuel' : nat) (c : nat) (r : Board * nat) :
  resetGame fuel c = Some r → (fuel ≤ fuel')%nat → resetGame fuel' c = Some r.
Proof.
  unfold resetGame, mbind, Rand_bind. intros Hrun Hle.
  destruct (resetLoop fuel _ _ _ _ c) as [[l c1]|] eqn:Hl; [|discriminate].
  rewrite (resetLoop_mono _ _ _ Hle _ _ _ _ _ Hl). assumption.
Qed.

Lemma handleKeyDown_mono (fuel fuel' : nat) (key : string) (b : Board) (c : nat)
    (r : Board * list Signal * nat) :
  handleKeyDown fuel key b c = Some r → (fuel ≤ fuel')%nat →
  handleKeyDown fuel' key b c = Some r.
Proof.
  rewrite !handleKeyDown_unfold. intros Hrun Hle.
  destruct (candidate BOARD_SIZE key (birdPosition b)) as [newPos|]; [|assumption].
  destruct (collidedSeedAt (seeds b) newPos) as [s|]; [|assumption].
  destruct (decide (type s = Hard)); [assumption|]. simpl in *.
  destruct (getRandomPosition fuel _ c) as [[p c1]|] eqn:Hp; [|discriminate].
  rewrite (getRandomPosition_mono _ _ _ _ _ Hp Hle). assumption.
Qed.

(** *** The candidate cell *)

Lemma candidate_cases (key : string) (p q : Position) :
  candidate BOARD_SIZE key p = Some q →
  (key = "ArrowUp" ∧ q = {| x := x p; y := Z.max 0 (y p - 1) |}) ∨
  (key = "ArrowDown" ∧ q = {| x := x p; y := Z.min (BOARD_SIZE - 1) (y p + 1) |}) ∨
  (key = "ArrowLeft" ∧ q = {| x := Z.max 0 (x p - 1); y := y p |}) ∨
  (key = "ArrowRight" ∧ q = {| x := Z.min (BOARD_SIZE - 1) (x p + 1); y := y p |}).
Proof.
  unfold candidate.
  destruct (String.eqb_spec key "ArrowUp") as [->|_]; [intros [= <-]; auto|].
  destruct (String.eqb_spec key "ArrowDown") as [->|_]; [intros [= <-]; auto|].
  destruct (String.eqb_spec key "ArrowLeft") as [->|_]; [intros [= <-]; auto|].
  destruct (String.eqb_spec key "ArrowRight") as [->|_]; [intros [= <-]; auto 6|].
  discriminate.
Qed.

Lemma candidate_inBounds (key : string) (p q : Position) :
  0 < BOARD_SIZE → inBounds BOARD_SIZE p →
  candidate BOARD_SIZE key p = Some q → inBounds BOARD_SIZE q.
Proof.
  intros HB [Hx Hy] Hc.
  destruct (candidate_cases _ _ _ Hc) as [[_ ->]|[[_ ->]|[[_ ->]|[_ ->]]]];
    unfold inBounds; simpl; lia.
Qed.

(** *** The outcomes of a key press *)

Lemma filter_collided (l : list Seed) (p : Position) (s : Seed) :
  collidedSeedAt l p = Some s →
  ∃ l1 l2, l = l1 ++ s :: l2 ∧ position s = p ∧
           (∀ s', s' ∈ l1 → position s' ≠ p) ∧
           Array.filter
             (λ _ index, negb (index =? Array.findIndex
                (λ seed, samePosition (position seed) p) l)) l = l1 ++ l2.
Proof.
  intros Hs. destruct (collidedSeedAt_Some _ _ _ Hs) as (l1 & l2 & Hl & Hp & Hl1 & Hi).
  exists l1, l2. split_and!; [assumption..|].
  rewrite Hi. unfold Array.filter. subst l.
  apply filterFrom_remove. lia.
Qed.

Lemma handleKeyDown_keyStep (fuel : nat) (key : string) (b b' : Board)
    (signals : list Signal) (c c' : nat) :
  handleKeyDown fuel key b c = Some ((b', signals), c') →
  keyStep BOARD_SIZE random key b b' signals.
Proof.
  rewrite handleKeyDown_unfold.
  destruct (candidate BOARD_SIZE key (birdPosition b)) as [newPos|] eqn:Hc.
  2:{ intros [= <- <- <-]. apply step_ignored. assumption. }
  destruct (collidedSeedAt (seeds b) newPos) as [s|] eqn:Hs.
  2:{ intros [= <- <- <-]. apply step_move; [assumption|].
      apply collidedSeedAt_free. assumption. }
  destruct (decide (type s = Hard)) as [Hty|Hty].
  { intros [= <- <- <-]. eapply step_hazard; eassumption. }
  destruct (filter_collided _ _ _ Hs) as (l1 & l2 & Hl & Hp & Hl1 & ->). simpl.
  destruct (getRandomPosition fuel _ c) as [[p c1]|] eqn:Hrun; [|discriminate].
  destruct (getNewSeedType c1) as [[ty c2]|]; [|discriminate].
  intros [= <- <- <-].
  apply getRandomPosition_sound in Hrun as (Hfree & k & _ & -> & _ & _).
  eapply step_collect; eassumption.
Qed.

(** *** What [resetGame] returns *)

Lemma resetGame_sound (P : Position → Prop) (fuel : nat) (c c' : nat) (b : Board) :
  (∀ k, P (sample k)) →
  resetGame fuel c = Some (b, c') →
  birdPosition b = {| x := BOARD_SIZE / 2; y := BOARD_SIZE / 2 |} ∧
  seedIdCounter b = initialSeeds (difficultySettings d) ∧
  Z.of_nat (length (seeds b)) = initialSeeds (difficultySettings d) ∧
  NoDup (birdPosition b :: (position <$> seeds b)) ∧
  (∀ s, s ∈ seeds b → P (position s)) ∧
  id <$> seeds b = Z.of_nat <$> seq 0 (length (seeds b)).
Proof.
  intros HP. unfold resetGame, mbind, Rand_bind.
  destruct (resetLoop fuel _ 0 [] _ c) as [[l c1]|] eqn:Hl; [|discriminate].
  intros [= <- <-]. simpl.
  destruct (resetLoop_sound P fuel _ _ HP [] l c c1 Hl) as (Hlen & Hnd & Hin & Hids).
  - apply NoDup_singleton.
  - intros s Hs. inversion Hs.
  - reflexivity.
  - split_and!; try assumption; try reflexivity.
    simpl in Hlen. rewrite Hlen. destruct d; reflexivity.
Qed.

Lemma resetGame_total (c : nat) :
  0 < BOARD_SIZE → fair BOARD_SIZE random →
  initialSeeds (difficultySettings d) < BOARD_SIZE * BOARD_SIZE →
  ∃ f0 b c', ∀ fuel, (f0 ≤ fuel)%nat → resetGame fuel c = Some (b, c').
Proof.
  intros HB Hfair Hroom.
  destruct (resetLoop_total (Z.to_nat (initialSeeds (difficultySettings d)))
              HB Hfair 0 [] [{| x := BOARD_SIZE / 2; y := BOARD_SIZE / 2 |}] c)
    as (f0 & l & c' & Hrun).
  { simpl. destruct d; simpl in *; lia. }
  exists f0. eexists. exists c'. intros fuel Hf.
  unfold resetGame, mbind, Rand_bind.
  rewrite (Hrun fuel Hf). reflexivity.
Qed.

(** *** Invariants of a key press *)

Lemma keyStep_bird (key : string) (b b' : Board) (signals : list Signal) :
  0 < BOARD_SIZE → keyStep BOARD_SIZE random key b b' signals →
  inBounds BOARD_SIZE (birdPosition b) → inBounds BOARD_SIZE (birdPosition b').
Proof.
  intros HB Hstep Hin. inversion Hstep; subst; simpl; try assumption;
    eapply candidate_inBounds; eassumption.
Qed.

Lemma keyStep_distinct (key : string) (b b' : Board) (signals : list Signal) :
  keyStep BOARD_SIZE random key b b' signals →
  NoDup (birdPosition b :: (position <$> seeds b)) →
  NoDup (birdPosition b' :: (position <$> seeds b')).
Proof.
  intros Hstep Hnd. inversion Hstep as [| newPos Hc Hfree | | newPos s l1 l2 k ty Hc Hs Hl Hp Hl1 Hty Hfree];
    subst; simpl; try assumption.
  - apply NoDup_cons in Hnd as [_ Hnd]. apply NoDup_cons. split; assumption.
  - apply NoDup_cons in Hnd as [_ Hnd]. rewrite Hl in Hnd.
    rewrite fmap_app in Hnd. simpl in Hnd.
    rewrite <- Permutation_middle in Hnd.
    rewrite fmap_app. simpl.
    change (NoDup ((position s :: (position <$> l1 ++ l2)) ++
                   [sample k])).
    apply NoDup_app. split_and!.
    + rewrite fmap_app. assumption.
    + intros q Hq Hq'. apply list_elem_of_singleton in Hq'. subst q. contradiction.
    + apply NoDup_singleton.
Qed.

Lemma keyStep_ids (key : string) (b b' : Board) (signals : list Signal) :
  keyStep BOARD_SIZE random key b b' signals →
  NoDup (id <$> seeds b) ∧ (∀ s, s ∈ seeds b → 0 ≤ id s < seedIdCounter b) →
  NoDup (id <$> seeds b') ∧ (∀ s, s ∈ seeds b' → 0 ≤ id s < seedIdCounter b').
Proof.
  intros Hstep [Hnd Hfresh]. inversion Hstep as [| | | newPos s l1 l2 k ty Hc Hs Hl Hp Hl1 Hty Hfree];
    subst; simpl; try (split; assumption).
  rewrite Hl in Hnd, Hfresh.
  assert (∀ s', s' ∈ l1 ++ l2 → 0 ≤ id s' < seedIdCounter b) as Hrest.
  { intros s' Hs'. apply Hfresh. rewrite elem_of_app in Hs' |- *.
    destruct Hs' as [?|?]; [left|right; right]; assumption. }
  assert (0 ≤ id s < seedIdCounter b) as Hs0.
  { apply Hfresh. apply elem_of_app. right. left. }
  split.
  - rewrite fmap_app. simpl. apply NoDup_app. split_and!.
    + rewrite fmap_app in Hnd |- *. simpl in Hnd.
      rewrite <- Permutation_middle in Hnd. apply NoDup_cons in Hnd as [_ Hnd].
      assumption.
    + intros i Hi Hi'. apply list_elem_of_singleton in Hi'. subst i.
      apply list_elem_of_fmap in Hi as (s' & Heq & Hs').
      specialize (Hrest s' Hs'). lia.
    + apply NoDup_singleton.
  - intros s' Hs'. apply elem_of_app in Hs' as [Hs'|Hs'].
    + specialize (Hrest s' Hs'). lia.
    + apply list_elem_of_singleton in Hs'. subst s'. simpl. lia.
Qed.

Lemma keyStep_count (key : string) (b b' : Board) (signals : list Signal) :
  keyStep BOARD_SIZE random key b b' signals →
  length (seeds b') = length (seeds b).
Proof.
  intros Hstep. inversion Hstep as [| | | newPos s l1 l2 k ty Hc Hs Hl Hp Hl1 Hty Hfree];
    subst; simpl; try reflexivity.
  rewrite Hl, !length_app. simpl. lia.
Qed.

Lemma keyStep_seeds (P : Position → Prop) (key : string) (b b' : Board)
    (signals : list Signal) :
  (∀ k, P (sample k)) →
  keyStep BOARD_SIZE random key b b' signals →
  (∀ s, s ∈ seeds b → P (position s)) → (∀ s, s ∈ seeds b' → P (position s)).
Proof.
  intros HP Hstep Hin. inversion Hstep as [| | | newPos s l1 l2 k ty Hc Hs Hl Hp Hl1 Hty Hfree];
    subst; simpl; try assumption.
  intros s' Hs'. apply elem_of_app in Hs' as [Hs'|Hs'].
  - apply Hin. rewrite Hl. rewrite elem_of_app in Hs' |- *.
    destruct Hs' as [?|?]; [left|right; right]; assumption.
  - apply list_elem_of_singleton in Hs'. subst s'. simpl. apply HP.
Qed.

(** A key press keeps the invariant of the board. *)
Lemma keyStep_boardInv (key : string) (b b' : Board) (signals : list Signal) :
  0 < BOARD_SIZE → validDraws random →
  keyStep BOARD_SIZE random key b b' signals →
  boardInv BOARD_SIZE d b → boardInv BOARD_SIZE d b'.
Proof.
  intros HB Hv Hstep [Hbird Hseeds Hdist Hids Hfresh Hcount].
  destruct (keyStep_ids _ _ _ _ Hstep (conj Hids Hfresh)) as [Hids' Hfresh'].
  split.
  - eapply keyStep_bird; eassumption.
  - eapply (keyStep_seeds (inBounds BOARD_SIZE)); [|eassumption..].
    intros k. apply sample_inBounds; assumption.
  - eapply keyStep_distinct; eassumption.
  - assumption.
  - assumption.
  - rewrite (keyStep_count _ _ _ _ Hstep). assumption.
Qed.

(** [resetGame] establishes it. *)
Lemma resetGame_boardInv (fuel : nat) (c c' : nat) (b : Board) :
  0 < BOARD_SIZE → validDraws random →
  resetGame fuel c = Some (b, c') → boardInv BOARD_SIZE d b.
Proof.
  intros HB Hv Hrun.
  destruct (resetGame_sound (inBounds BOARD_SIZE) fuel c c' b)
    as (Hbird & Hctr & Hlen & Hnd & Hin & Hids); [|assumption|].
  { intros k. apply sample_inBounds; assumption. }
  split; try assumption.
  - rewrite Hbird. unfold inBounds; simpl.
    pose proof (Z.div_pos BOARD_SIZE 2). pose proof (Z.div_lt BOARD_SIZE 2). lia.
  - rewrite Hids. apply NoDup_fmap_2; [|apply NoDup_seq].
    intros i j Hij. lia.
  - intros s Hs.
    assert (id s ∈ id <$> seeds b) as Hid.
    { apply list_elem_of_fmap. exists s. split; [reflexivity|assumption]. }
    rewrite Hids in Hid. apply list_elem_of_fmap in Hid as (i & -> & Hi).
    apply elem_of_seq in Hi. lia.
Qed.

(** X1.  The invariant of the board.  Every board a game reaches has its
    bird and its seeds on cells of the board, no two seeds on one cell and
    none on the bird's cell, distinct seed identifiers that are not negative
    and below the counter, and as many seeds as the difficulty asks for. *)
Theorem reachable_boardInv (b : Board) :
  0 < BOARD_SIZE → validDraws random →
  reachable BOARD_SIZE random d b → boardInv BOARD_SIZE d b.
Proof.
  intros HB Hv Hreach. induction Hreach as [fuel c b c' Hrun | fuel key c b b' signals c' _ IH Hrun].
  - eapply resetGame_boardInv; eassumption.
  - eapply keyStep_boardInv; [assumption..| |exact IH].
    eapply handleKeyDown_keyStep. eassumption.
Qed.

Lemma reachable_bird (b : Board) :
  0 < BOARD_SIZE → reachable BOARD_SIZE random d b →
  inBounds BOARD_SIZE (birdPosition b).
Proof.
  intros HB Hreach. induction Hreach as [fuel c b c' Hrun | fuel key c b b' signals c' _ IH Hrun].
  - destruct (resetGame_sound (λ _, True) fuel c c' b) as (Hbird & _); [done|assumption|].
    rewrite Hbird. unfold inBounds; simpl.
    pose proof (Z.div_pos BOARD_SIZE 2). pose proof (Z.div_lt BOARD_SIZE 2). lia.
  - eapply keyStep_bird; [assumption| |exact IH].
    eapply handleKeyDown_keyStep. eassumption.
Qed.

Lemma reachable_distinct (b : Board) :
  reachable BOARD_SIZE random d b →
  NoDup (birdPosition b :: (position <$> seeds b)).
Proof.
  intros Hreach. induction Hreach as [fuel c b c' Hrun | fuel key c b b' signals c' _ IH Hrun].
  - destruct (resetGame_sound (λ _, True) fuel c c' b) as (_ & _ & _ & Hnd & _);
      [done|assumption..].
  - eapply keyStep_distinct; [|exact IH].
    eapply handleKeyDown_keyStep. eassumption.
Qed.

Lemma collidedSeedAt_split (l1 l2 : list Seed) (s : Seed) (p : Position) :
  (∀ s', s' ∈ l1 → position s' ≠ p) → position s = p →
  collidedSeedAt (l1 ++ s :: l2) p = Some s.
Proof.
  intros Hl1 Hp. unfold collidedSeedAt, Array.findIndex.
  rewrite findIndexFrom_app.
  - rewrite Z.add_0_l. apply get_middle.
  - intros s' Hs'. apply samePosition_false, Hl1. assumption.
  - apply samePosition_true. assumption.
Qed.

(** *** Eating a seed *)

(** With a fair source and room on the board, a move into a seed that is
    not hard returns: the bird is on the seed's cell, the seed is gone, and
    a new seed [r] with the counter's value as its identifier lies on a cell
    that is neither the bird's nor another seed's. *)
Lemma handleKeyDown_collect (key : string) (b : Board) (c : nat)
    (newPos : Position) (s : Seed) :
  0 < BOARD_SIZE → fair BOARD_SIZE random →
  Z.of_nat (length (seeds b)) < BOARD_SIZE * BOARD_SIZE →
  candidate BOARD_SIZE key (birdPosition b) = Some newPos →
  collidedSeedAt (seeds b) newPos = Some s →
  type s ≠ Hard →
  ∃ f0 c' l1 l2 r,
    seeds b = l1 ++ s :: l2 ∧ position s = newPos ∧
    (∀ s', s' ∈ l1 → position s' ≠ newPos) ∧
    id r = seedIdCounter b ∧
    (position r ∉ newPos :: (position <$> l1 ++ l2)) ∧
    (∃ k, position r = sample k) ∧
    ∀ fuel, (f0 ≤ fuel)%nat →
      handleKeyDown fuel key b c =
        Some (({| birdPosition := newPos;
                  seeds := (l1 ++ l2) ++ [r];
                  seedIdCounter := seedIdCounter b + 1 |},
               [if decide (type s = Coin) then onCoinCollect else onScore]), c').
Proof.
  intros HB Hfair Hroom Hc Hs Hty.
  destruct (filter_collided _ _ _ Hs) as (l1 & l2 & Hl & Hp & Hl1 & Hrest).
  destruct (getRandomPosition_fair (newPos :: (position <$> l1 ++ l2)) c HB Hfair)
    as (f0 & p & c1 & Hrun).
  { simpl. rewrite length_fmap. rewrite Hl in Hroom.
    rewrite !length_app in *. simpl in Hroom. lia. }
  destruct (getNewSeedType_total c1) as (ty & Hnew).
  pose proof (Hrun f0 (Nat.le_refl _)) as Hp0.
  apply getRandomPosition_sound in Hp0 as (Hfree & k & _ & Hk & _ & _).
  exists f0, (S c1), l1, l2, {| id := seedIdCounter b; position := p; type := ty |}.
  split_and!; try assumption; try reflexivity.
  - exists (c + 2 * k)%nat. assumption.
  - intros fuel Hf. rewrite handleKeyDown_unfold, Hc, Hs.
    destruct (decide (type s = Hard)); [contradiction|]. simpl.
    rewrite Hrest, (Hrun fuel Hf), Hnew. reflexivity.
Qed.

(** Whenever a move into a seed that is not hard returns, this is what it
    returns. *)
Lemma handleKeyDown_collect_sound (fuel : nat) (key : string) (b b' : Board)
    (signals : list Signal) (c c' : nat) (newPos : Position) (s : Seed) :
  candidate BOARD_SIZE key (birdPosition b) = Some newPos →
  collidedSeedAt (seeds b) newPos = Some s →
  type s ≠ Hard →
  handleKeyDown fuel key b c = Some ((b', signals), c') →
  signals = [if decide (type s = Coin) then onCoinCollect else onScore] ∧
  ∃ l1 l2 r,
    seeds b = l1 ++ s :: l2 ∧ position s = newPos ∧
    (∀ s', s' ∈ l1 → position s' ≠ newPos) ∧
    id r = seedIdCounter b ∧
    (position r ∉ newPos :: (position <$> l1 ++ l2)) ∧
    b' = {| birdPosition := newPos;
            seeds := (l1 ++ l2) ++ [r];
            seedIdCounter := seedIdCounter b + 1 |}.
Proof.
  intros Hc Hs Hty. rewrite handleKeyDown_unfold, Hc, Hs.
  destruct (decide (type s = Hard)); [contradiction|]. simpl.
  destruct (filter_collided _ _ _ Hs) as (l1 & l2 & Hl & Hp & Hl1 & ->).
  destruct (getRandomPosition fuel _ c) as [[p c1]|] eqn:Hrun; [|discriminate].
  destruct (getNewSeedType c1) as [[ty c2]|]; [|discriminate].
  intros [= <- <- <-]. split; [reflexivity|].
  apply getRandomPosition_sound in Hrun as (Hfree & _).
  exists l1, l2, {| id := seedIdCounter b; position := p; type := ty |}.
  split_and!; try assumption; reflexivity.
Qed.

(** A run that returns returns what every run with more fuel returns. *)
Lemma handleKeyDown_stable (f0 : nat) (key : string) (b : Board) (c : nat)
    (r : Board * list Signal * nat) :
  (∀ fuel, (f0 ≤ fuel)%nat → handleKeyDown fuel key b c = Some r) →
  ∀ fuel r', handleKeyDown fuel key b c = Some r' → r' = r.
Proof.
  intros Hstable fuel r' Hrun.
  pose proof (handleKeyDown_mono fuel (fuel `max` f0) key b c r' Hrun) as H1.
  pose proof (Hstable (fuel `max` f0)%nat) as H2.
  rewrite H1 in H2 by lia. specialize (H2 ltac:(lia)). congruence.
Qed.

Lemma resetGame_stable (f0 : nat) (c : nat) (r : Board * nat) :
  (∀ fuel, (f0 ≤ fuel)%nat → resetGame fuel c = Some r) →
  ∀ fuel r', resetGame fuel c = Some r' → r' = r.
Proof.
  intros Hstable fuel r' Hrun.
  pose proof (resetGame_mono fuel (fuel `max` f0) c r' Hrun) as H1.
  pose proof (Hstable (fuel `max` f0)%nat) as H2.
  rewrite H1 in H2 by lia. specialize (H2 ltac:(lia)). congruence.
Qed.

Lemma filter_split (l1 l2 : list Seed) (s : Seed) (p : Position) :
  (∀ s', s' ∈ l1 → position s' ≠ p) → position s = p →
  Array.filter
    (λ _ index, negb (index =? Array.findIndex
       (λ seed, samePosition (position seed) p) (l1 ++ s :: l2)))
    (l1 ++ s :: l2) = l1 ++ l2.
Proof.
  intros Hl1 Hp. unfold Array.filter, Array.findIndex.
  rewrite findIndexFrom_app.
  - apply filterFrom_remove. reflexivity.
  - intros s' Hs'. apply samePosition_false, Hl1. assumption.
  - apply samePosition_true. assumption.
Qed.



(** A hard seed on the candidate cell ends the move at once. *)
Lemma handleKeyDown_hazard (fuel : nat) (key : string) (b : Board) (c : nat)
    (newPos : Position) (s : Seed) :
  candidate BOARD_SIZE key (birdPosition b) = Some newPos →
  collidedSeedAt (seeds b) newPos = Some s →
  type s = Hard →
  handleKeyDown fuel key b c = Some ((b, [onGameOver]), c).
Proof.
  intros Hc Hs Hty. rewrite handleKeyDown_unfold, Hc, Hs.
  destruct (decide (type s = Hard)); [reflexivity|contradiction].
Qed.

(** ** The claims about the grid engine *)

(** C1.  The bird stays on the board.  In every board [b] a game reaches,
    by [resetGame] followed by any sequence of key presses, both coordinates
    of the bird lie in [[0, BOARD_SIZE - 1]].  A move toward a boundary the
    bird already touches is clamped: its candidate cell is the bird's own
    cell, and the move is carried out as a move to that cell, with no
    signal, rather than wrapped around or rejected. *)
Theorem bird_stays_on_board (b : Board) :
  0 < BOARD_SIZE →
  reachable BOARD_SIZE random d b →
  inBounds BOARD_SIZE (birdPosition b) ∧
  (y (birdPosition b) = 0 →
   candidate BOARD_SIZE "ArrowUp" (birdPosition b) = Some (birdPosition b)) ∧
  (y (birdPosition b) = BOARD_SIZE - 1 →
   candidate BOARD_SIZE "ArrowDown" (birdPosition b) = Some (birdPosition b)) ∧
  (x (birdPosition b) = 0 →
   candidate BOARD_SIZE "ArrowLeft" (birdPosition b) = Some (birdPosition b)) ∧
  (x (birdPosition b) = BOARD_SIZE - 1 →
   candidate BOARD_SIZE "ArrowRight" (birdPosition b) = Some (birdPosition b)) ∧
  (∀ key fuel c,
     candidate BOARD_SIZE key (birdPosition b) = Some (birdPosition b) →
     handleKeyDown fuel key b c = Some ((b, []), c)).
Proof.
  intros HB Hreach.
  pose proof (reachable_bird b HB Hreach) as Hin.
  pose proof (reachable_distinct b Hreach) as Hnd.
  split; [assumption|].
  destruct b as [[bx b_y] l n]. destruct Hin as [Hx Hy]. simpl in *.
  split_and!.
  - intros ->. unfold candidate; simpl. do 2 f_equal.
  - intros ->. unfold candidate; simpl. do 2 f_equal. lia.
  - intros ->. unfold candidate; simpl. do 2 f_equal.
  - intros ->. unfold candidate; simpl. do 2 f_equal. lia.
  - intros key fuel c Hc. rewrite handleKeyDown_unfold. simpl. rewrite Hc.
    apply NoDup_cons in Hnd as [Hfree _].
    apply collidedSeedAt_free in Hfree. rewrite Hfree. reflexivity.
Qed.

(** C2.  A move whose candidate cell holds a hard seed leaves the board as
    it is: the bird stays on its cell, the seeds and the identifier counter
    are not modified, and no random number is drawn.  The signals emitted
    are exactly one [onGameOver]. *)
Theorem hazard_move_is_game_over (fuel : nat) (key : string) (b : Board)
    (c : nat) (newPos : Position) (s : Seed) :
  candidate BOARD_SIZE key (birdPosition b) = Some newPos →
  collidedSeedAt (seeds b) newPos = Some s →
  type s = Hard →
  handleKeyDown fuel key b c = Some ((b, [onGameOver]), c).
Proof.
  intros Hc Hs Hty.
  apply handleKeyDown_hazard with (newPos := newPos) (s := s); assumption.
Qed.

(** C3.  A move whose candidate cell holds a good seed [s], on a board
    whose seeds have distinct identifiers below the counter.  Whenever the
    move returns: the bird is on the seed's cell; the signals emitted are
    exactly one [onScore]; the seed [s] is removed and one seed [r] is
    appended, so the number of seeds is unchanged; the cell of [r] differs
    from the bird's new cell and from the cell of every remaining seed; the
    identifier of [r] is the value the counter had before the move, and the
    counter is incremented; no seed carries the identifier of [s] any more.
    With a fair source of randomness and fewer seeds than cells, the move
    does return. *)
Theorem good_seed_move_replaces_seed (key : string) (b : Board) (c : nat)
    (newPos : Position) (s : Seed) :
  NoDup (id <$> seeds b) →
  (∀ s', s' ∈ seeds b → id s' < seedIdCounter b) →
  candidate BOARD_SIZE key (birdPosition b) = Some newPos →
  collidedSeedAt (seeds b) newPos = Some s →
  type s = Good →
  (∀ fuel b' signals c',
     handleKeyDown fuel key b c = Some ((b', signals), c') →
     signals = [onScore] ∧
     birdPosition b' = newPos ∧ position s = newPos ∧
     seedIdCounter b' = seedIdCounter b + 1 ∧
     length (seeds b') = length (seeds b) ∧
     (∀ s', s' ∈ seeds b' → id s' ≠ id s) ∧
     ∃ l1 l2 r,
       seeds b = l1 ++ s :: l2 ∧ seeds b' = (l1 ++ l2) ++ [r] ∧
       id r = seedIdCounter b ∧
       position r ≠ birdPosition b' ∧
       (∀ s', s' ∈ l1 ++ l2 → position r ≠ position s')) ∧
  (0 < BOARD_SIZE → fair BOARD_SIZE random →
   Z.of_nat (length (seeds b)) < BOARD_SIZE * BOARD_SIZE →
   ∃ f0 b' c', ∀ fuel, (f0 ≤ fuel)%nat →
     handleKeyDown fuel key b c = Some ((b', [onScore]), c')).
Proof.
  intros Hnd Hfresh Hc Hs Hty. split.
  - intros fuel b' signals c' Hrun.
    destruct (handleKeyDown_collect_sound fuel key b b' signals c c' newPos s Hc Hs)
      as (-> & l1 & l2 & r & Hl & Hp & Hl1 & Hid & Hfree & ->); [congruence|assumption|].
    rewrite Hty. simpl. split_and!; try done.
    + rewrite Hl, !length_app. simpl. lia.
    + rewrite Hl in Hnd, Hfresh.
      rewrite fmap_app in Hnd. simpl in Hnd.
      rewrite <- Permutation_middle in Hnd. apply NoDup_cons in Hnd as [Hnotin _].
      intros s' Hs' Heq. apply elem_of_app in Hs' as [Hs'|Hs'].
      * apply Hnotin. rewrite <- fmap_app, <- Heq.
        apply list_elem_of_fmap. exists s'. split; [reflexivity|assumption].
      * apply list_elem_of_singleton in Hs'. subst s'.
        assert (id s < seedIdCounter b); [|lia].
        apply Hfresh. apply elem_of_app. right. left.
    + exists l1, l2, r. split_and!; try done.
      * intros Heq. apply Hfree. rewrite Heq. left.
      * intros s' Hs' Heq. apply Hfree. right.
        apply list_elem_of_fmap. exists s'. split; assumption.
  - intros HB Hfair Hroom.
    destruct (handleKeyDown_collect key b c newPos s HB Hfair Hroom Hc Hs)
      as (f0 & c' & l1 & l2 & r & _ & _ & _ & _ & _ & _ & Hrun); [congruence|].
    rewrite Hty in Hrun. simpl in Hrun. eexists f0, _, c'. exact Hrun.
Qed.

(** C4.  A move whose candidate cell holds a coin [s] does what the same
    move does on the board where [s] is a good seed, except that the signal
    is [onCoinCollect] instead of [onScore]: the two runs return the same
    board and draw the same random numbers, or both have not returned.
    With a fair source and fewer seeds than cells the move returns.  The
    session controller answers [onCoinCollect] by adding one to [coins] and
    one to [score]. *)
Theorem coin_move_is_good_seed_move (key : string) (b : Board) (c : nat)
    (newPos : Position) (s : Seed) (l1 l2 : list Seed) :
  candidate BOARD_SIZE key (birdPosition b) = Some newPos →
  seeds b = l1 ++ s :: l2 →
  (∀ s', s' ∈ l1 → position s' ≠ newPos) →
  position s = newPos →
  type s = Coin →
  let good :=
    {| birdPosition := birdPosition b;
       seeds := l1 ++ {| id := id s; position := position s; type := Good |} :: l2;
       seedIdCounter := seedIdCounter b |} in
  (∀ fuel,
     handleKeyDown fuel key b c =
       match handleKeyDown fuel key good c with
       | Some ((b', _), c') => Some ((b', [onCoinCollect]), c')
       | None => None
       end) ∧
  (∀ fuel b' signals c',
     handleKeyDown fuel key good c = Some ((b', signals), c') →
     signals = [onScore]) ∧
  (0 < BOARD_SIZE → fair BOARD_SIZE random →
   Z.of_nat (length (seeds b)) < BOARD_SIZE * BOARD_SIZE →
   ∃ f0 b' c', ∀ fuel, (f0 ≤ fuel)%nat →
     handleKeyDown fuel key b c = Some ((b', [onCoinCollect]), c')) ∧
  (∀ a, deliver a onCoinCollect =
          {| gameState := gameState a;
             score := score a + 1;
             coins := coins a + 1;
             totalPoints := totalPoints a;
             difficulty := difficulty a |}).
Proof.
  intros Hc Hl Hl1 Hp Hty good.
  pose proof (collidedSeedAt_split l1 l2 s newPos Hl1 Hp) as Hs.
  pose proof (collidedSeedAt_split l1 l2
                {| id := id s; position := position s; type := Good |}
                newPos Hl1 Hp) as Hg.
  assert (∀ fuel, handleKeyDown fuel key good c =
            match getRandomPosition fuel (newPos :: (position <$> l1 ++ l2)) c with
            | Some (p, c1) =>
                match getNewSeedType c1 with
                | Some (ty, c2) =>
                    Some (({| birdPosition := newPos;
                              seeds := (l1 ++ l2) ++
                                [{| id := seedIdCounter b; position := p; type := ty |}];
                              seedIdCounter := seedIdCounter b + 1 |}, [onScore]), c2)
                | None => None
                end
            | None => None
            end) as Hgood.
  { intros fuel. rewrite handleKeyDown_unfold. unfold good at 1 2; simpl.
    rewrite Hc, Hg. simpl.
    rewrite (filter_split l1 l2
               {| id := id s; position := position s; type := Good |}
               newPos Hl1 Hp).
    reflexivity. }
  split_and!.
  - intros fuel. rewrite Hgood, handleKeyDown_unfold, Hc, Hl, Hs.
    destruct (decide (type s = Hard)) as [E|_]; [congruence|]. simpl.
    rewrite (filter_split l1 l2 s newPos Hl1 Hp).
    destruct (getRandomPosition fuel _ c) as [[p c1]|]; [|reflexivity].
    destruct (getNewSeedType c1) as [[ty c2]|]; [|reflexivity].
    destruct (decide (type s = Coin)); [reflexivity|contradiction].
  - intros fuel b' signals c'. rewrite Hgood.
    destruct (getRandomPosition fuel _ c) as [[p c1]|]; [|discriminate].
    destruct (getNewSeedType c1) as [[ty c2]|]; [|discriminate].
    intros [= _ <- _]. reflexivity.
  - intros HB Hfair Hroom.
    destruct (handleKeyDown_collect key b c newPos s HB Hfair Hroom Hc)
      as (f0 & c' & l1' & l2' & r & _ & _ & _ & _ & _ & _ & Hrun).
    { rewrite Hl. assumption. }
    { rewrite Hty. discriminate. }
    rewrite Hty in Hrun. simpl in Hrun. eexists f0, _, c'. exact Hrun.
  - intros a. reflexivity.
Qed.

(** C5.  [resetGame], for every difficulty [d].  Whenever it returns: the
    bird is on the centre cell; there are [initialSeeds] seeds; every seed
    is on a cell of the board; no two seeds share a cell and no seed is on
    the bird's cell; the identifiers are [0, 1, ...] in order; the counter
    equals [initialSeeds].  With a fair source of randomness and fewer
    seeds than cells, it does return. *)
Theorem resetGame_places_the_seeds :
  0 < BOARD_SIZE → validDraws random →
  (∀ fuel c b c',
     resetGame fuel c = Some (b, c') →
     birdPosition b = {| x := BOARD_SIZE / 2; y := BOARD_SIZE / 2 |} ∧
     Z.of_nat (length (seeds b)) = initialSeeds (difficultySettings d) ∧
     (∀ s, s ∈ seeds b → inBounds BOARD_SIZE (position s)) ∧
     NoDup (position <$> seeds b) ∧
     (∀ s, s ∈ seeds b → position s ≠ birdPosition b) ∧
     id <$> seeds b = Z.of_nat <$> seq 0 (length (seeds b)) ∧
     seedIdCounter b = initialSeeds (difficultySettings d)) ∧
  (fair BOARD_SIZE random →
   initialSeeds (difficultySettings d) < BOARD_SIZE * BOARD_SIZE →
   ∀ c, ∃ f0 b c', ∀ fuel, (f0 ≤ fuel)%nat → resetGame fuel c = Some (b, c')).
Proof.
  intros HB Hv. split.
  - intros fuel c b c' Hrun.
    destruct (resetGame_sound (inBounds BOARD_SIZE) fuel c c' b)
      as (Hbird & Hctr & Hlen & Hnd & Hin & Hids); [|assumption|].
    { intros k. apply sample_inBounds; assumption. }
    apply NoDup_cons in Hnd as [Hfree Hnd].
    split_and!; try assumption.
    intros s Hs Heq. apply Hfree. rewrite <- Heq.
    apply list_elem_of_fmap. exists s. split; [reflexivity|assumption].
  - intros Hfair Hroom c. apply resetGame_total; assumption.
Qed.


End WithDifficulty.
End GameBoardFacts.

(** ** JavaScript numbers *)

Lemma normalize_canonical (m : Z) (k : nat) : Js.canonical (Js.normalize m k).
Proof.
  revert m. induction k as [|k IH]; intros m; simpl; [left; reflexivity|].
  destruct (Z.eqb_spec (m mod 10) 0) as [_|Hne]; [apply IH|].
  right. assumption.
Qed.

Lemma add_canonical (a b : Js.number) : Js.canonical (Js.add a b).
Proof.
  destruct a as [|s|m1 k1], b as [|t|m2 k2]; try exact I.
  - simpl. destruct (Bool.eqb s t); exact I.
  - apply normalize_canonical.
Qed.

Lemma Number_canonical (v : option string) : Js.canonical (Js.Number v).
Proof.
  assert (∀ base l, Js.canonical (Js.nonDecimal base l)) as Hnon.
  { intros base l. unfold Js.nonDecimal.
    destruct (Js.readDigits base 0 0 l) as [[n [|count]] [|a r]];
      try exact I. left. reflexivity. }
  assert (∀ m e, Js.canonical (Js.scale m e)) as Hscale.
  { intros m e. unfold Js.scale.
    destruct (0 <=? e); [left; reflexivity|apply normalize_canonical]. }
  assert (∀ negative l, Js.canonical (Js.unsignedDecimal negative l)) as Hdec.
  { intros negative l. unfold Js.unsignedDecimal.
    repeat case_match; try exact I; apply Hscale. }
  destruct v as [s|]; [|left; reflexivity].
  unfold Js.Number, Js.StringToNumber.
  repeat case_match; try apply Hdec; try apply Hnon; left; reflexivity.
Qed.

(** ** The conversions between numbers and strings, on examples *)

Example Number_examples :
  Js.Number None = Js.Finite 0 0 ∧
  Js.Number (Some "") = Js.Finite 0 0 ∧
  Js.Number (Some "abc") = Js.NaN ∧
  Js.Number (Some "-5") = Js.Finite (-5) 0 ∧
  Js.Number (Some " 42 ") = Js.Finite 42 0 ∧
  Js.Number (Some "1.50") = Js.Finite 15 1 ∧
  Js.Number (Some ".5") = Js.Finite 5 1 ∧
  Js.Number (Some "5.") = Js.Finite 5 0 ∧
  Js.Number (Some ".") = Js.NaN ∧
  Js.Number (Some "1e3") = Js.Finite 1000 0 ∧
  Js.Number (Some "12e-1") = Js.Finite 12 1 ∧
  Js.Number (Some "1e") = Js.NaN ∧
  Js.Number (Some "0x1F") = Js.Finite 31 0 ∧
  Js.Number (Some "-0x1F") = Js.NaN ∧
  Js.Number (Some "0b101") = Js.Finite 5 0 ∧
  Js.Number (Some "0x") = Js.NaN ∧
  Js.Number (Some "-Infinity") = Js.Infinity true ∧
  Js.Number (Some "12px") = Js.NaN ∧
  Js.Number (Some "1 2") = Js.NaN ∧
  Js.Number (Some "-0") = Js.Finite 0 0 ∧
  Js.Number (Some "007") = Js.Finite 7 0.
Proof. vm_compute. repeat split. Qed.

Example ToString_examples :
  Js.ToString (Js.Finite 0 0) = "0" ∧
  Js.ToString (Js.Finite 8 0) = "8" ∧
  Js.ToString (Js.Finite (-5) 0) = "-5" ∧
  Js.ToString (Js.Finite 1200 0) = "1200" ∧
  Js.ToString (Js.Finite 15 1) = "1.5" ∧
  Js.ToString (Js.Finite (-125) 3) = "-0.125" ∧
  Js.ToString (Js.Finite 1 6) = "0.000001" ∧
  Js.ToString (Js.Finite 1 7) = "1e-7" ∧
  Js.ToString (Js.Finite 12 8) = "1.2e-7" ∧
  Js.ToString (Js.Finite (10 ^ 21) 0) = "1e+21" ∧
  Js.ToString (Js.Finite (10 ^ 20) 0) = "100000000000000000000" ∧
  Js.ToString (Js.Finite 12345 2) = "123.45" ∧
  Js.ToString Js.NaN = "NaN" ∧
  Js.ToString (Js.Infinity true) = "-Infinity".
Proof. vm_compute. repeat split. Qed.

(** ** The page *)

Section PageFacts.
Variable BOARD_SIZE : Z.
Variable random : nat → Q.

#[local] Abbreviation handleKeyDown := (handleKeyDown BOARD_SIZE random).
#[local] Abbreviation resetGame := (resetGame BOARD_SIZE random).
#[local] Abbreviation commit := (commit BOARD_SIZE random).
#[local] Abbreviation dispatch := (dispatch BOARD_SIZE random).
#[local] Abbreviation dispatchAll := (dispatchAll BOARD_SIZE random).

(** The signals of one key press. *)
Lemma handleKeyDown_signals (d : Difficulty) (fuel : nat) (key : string)
    (b b' : Board) (signals : list Signal) (c c' : nat) :
  handleKeyDown d fuel key b c = Some ((b', signals), c') →
  signals = [] ∨ signals = [onScore] ∨ signals = [onCoinCollect] ∨
  (signals = [onGameOver] ∧ b' = b ∧ c' = c).
Proof.
  intros Hrun. pose proof Hrun as Hstep.
  apply handleKeyDown_keyStep in Hstep.
  inversion Hstep as [| | newPos s Hc Hs Hty | newPos s l1 l2 k ty Hc Hs Hl Hp Hl1 Hty Hfree];
    subst; auto.
  - right. right. right. split; [reflexivity|].
    rewrite (handleKeyDown_hazard BOARD_SIZE random d fuel key b' c newPos s Hc Hs Hty) in Hrun.
    split; [reflexivity|congruence].
  - destruct (decide (type s = Coin)); auto.
Qed.

Lemma dispatchAll_cons (fuel : nat) (ev : Event) (evs : list Event)
    (sys : System) (c : nat) :
  dispatchAll fuel (ev :: evs) sys c =
    match dispatch fuel ev sys c with
    | Some ((sys1, signals1), c1) =>
        match dispatchAll fuel evs sys1 c1 with
        | Some ((sys2, signals2), c2) => Some ((sys2, signals1 ++ signals2), c2)
        | None => None
        end
    | None => None
    end.
Proof.
  cbn [dispatchAll]. unfold mbind at 1, Rand_bind at 1.
  destruct (dispatch fuel ev sys c) as [[[sys1 signals1] c1]|]; [|reflexivity].
  unfold mbind at 1, Rand_bind at 1. cbn [fst snd].
  destruct (dispatchAll fuel evs sys1 c1) as [[[sys2 signals2] c2]|]; reflexivity.
Qed.

(** Without a board there is no listener: key presses do nothing. *)
Lemma dispatch_KeyDown_unmounted (fuel : nat) (key : string) (sys : System)
    (c : nat) :
  board sys = None → dispatch fuel (KeyDown key) sys c = Some ((sys, []), c).
Proof. intros Hb. unfold dispatch. rewrite Hb. reflexivity. Qed.

Lemma dispatchAll_keys_unmounted (fuel : nat) (keys : list string)
    (sys : System) (c : nat) :
  board sys = None →
  dispatchAll fuel (KeyDown <$> keys) sys c = Some ((sys, []), c).
Proof.
  intros Hb. induction keys as [|key keys IH]; [reflexivity|].
  rewrite fmap_cons, dispatchAll_cons.
  rewrite (dispatch_KeyDown_unmounted fuel key sys c Hb), IH. reflexivity.
Qed.

Lemma storageAfter_same (a a' : App) (storage : Storage) :
  totalPoints a' = totalPoints a → storageAfter a a' storage = storage.
Proof. intros Heq. unfold storageAfter. rewrite decide_True; done. Qed.

Lemma storageAfter_persisted (a a' : App) (storage : Storage) :
  storage !! "totalPoints" = Some (Js.ToString (totalPoints a)) →
  storageAfter a a' storage !! "totalPoints"
    = Some (Js.ToString (totalPoints a')).
Proof.
  intros Hold. unfold storageAfter, persistTotalPoints.
  destruct (decide (totalPoints a' = totalPoints a)) as [->|_]; [assumption|].
  apply lookup_insert_eq.
Qed.

(** A key press that emits [onGameOver] emits nothing else, draws no random
    number, and leaves the page without a board. *)
Lemma dispatch_KeyDown_gameOver (fuel : nat) (key : string) (sys sys' : System)
    (signals : list Signal) (c c' : nat) :
  dispatch fuel (KeyDown key) sys c = Some ((sys', signals), c') →
  onGameOver ∈ signals →
  signals = [onGameOver] ∧ c' = c ∧
  sys' = {| app := handleGameOver (app sys);
            board := None;
            localStorage :=
              storageAfter (app sys) (handleGameOver (app sys)) (localStorage sys) |}.
Proof.
  unfold dispatch. destruct (board sys) as [b|] eqn:Hb.
  2:{ intros [= <- <- <-] Hin. inversion Hin. }
  unfold mbind at 1, Rand_bind at 1.
  destruct (handleKeyDown _ fuel key b c) as [[[b' sigs] c1]|] eqn:Hrun;
    [|discriminate].
  simpl. intros Hd Hin.
  destruct (handleKeyDown_signals _ _ _ _ _ _ _ _ Hrun)
    as [->|[->|[->|(-> & -> & ->)]]];
    simpl in Hd; unfold mbind, Rand_bind, commit in Hd; simpl in Hd.
  - destruct (gameState (app sys)); simpl in Hd; injection Hd as <- <- <-;
      inversion Hin.
  - destruct (gameState (app sys)); simpl in Hd; injection Hd as <- <- <-;
      apply list_elem_of_singleton in Hin; discriminate.
  - destruct (gameState (app sys)); simpl in Hd; injection Hd as <- <- <-;
      apply list_elem_of_singleton in Hin; discriminate.
  - injection Hd as <- <- <-. split_and!; reflexivity.
Qed.



(** The start button, on a screen that shows it: the score and the coins are
    reset, and a new board is placed by [resetGame]. *)
Lemma dispatch_ClickStart (fuel : nat) (sys : System) (c : nat) :
  gameState (app sys) = Ready ∨ gameState (app sys) = GameOver →
  board sys = None →
  dispatch fuel ClickStart sys c =
    match resetGame (difficulty (app sys)) fuel c with
    | Some (b, c') =>
        Some (({| app := handleStartGame (app sys);
                  board := Some b;
                  localStorage := localStorage sys |}, []), c')
    | None => None
    end.
Proof.
  intros Hstate Hb. unfold dispatch.
  assert (∀ T (k other : T),
    match gameState (app sys) with Ready | GameOver => k | _ => other end = k) as ->.
  { intros T k other. destruct Hstate as [->| ->]; reflexivity. }
  rewrite Hb. unfold mbind at 1, Rand_bind at 1, commit. simpl.
  rewrite storageAfter_same by reflexivity.
  unfold mbind, Rand_bind.
  destruct (resetGame _ fuel c) as [[b c']|]; reflexivity.
Qed.



(** ** The claims about the session *)

(** C7.  After the engine has emitted [onGameOver] the game is over until
    the next start.  The key press that emits it emits nothing else and
    leaves the page in the [GameOver] state without a board: the
    [GameBoard] is unmounted and its [keydown] listener removed.  From then
    on any sequence of key presses leaves the page as it is (there is no
    bird and no seed to change), emits no signal and draws no random
    number.  Only the start button brings a board back, and it does so by
    [resetGame]. *)
Theorem game_over_is_terminal (fuel : nat) (key : string) (sys sys' : System)
    (signals : list Signal) (c c' : nat) :
  dispatch fuel (KeyDown key) sys c = Some ((sys', signals), c') →
  onGameOver ∈ signals →
  signals = [onGameOver] ∧
  gameState (app sys') = GameOver ∧ board sys' = None ∧
  (∀ fuel' keys c'',
     dispatchAll fuel' (KeyDown <$> keys) sys' c'' = Some ((sys', []), c'')) ∧
  (∀ fuel' c'',
     dispatch fuel' ClickStart sys' c'' =
       match resetGame (difficulty (app sys')) fuel' c'' with
       | Some (b, c3) =>
           Some (({| app := handleStartGame (app sys');
                     board := Some b;
                     localStorage := localStorage sys' |}, []), c3)
       | None => None
       end).
Proof.
  intros Hd Hover.
  destruct (dispatch_KeyDown_gameOver _ _ _ _ _ _ _ Hd Hover) as (-> & -> & ->).
  split_and!; try reflexivity.
  - intros fuel' keys c''. apply dispatchAll_keys_unmounted. reflexivity.
  - intros fuel' c''. apply dispatch_ClickStart; [right|]; reflexivity.
Qed.


(** C9.  [handleSelectDifficulty] sets the difficulty, puts the session in
    the [Ready] state and changes nothing else: [totalPoints], [score] and
    [coins] are those of before.  On the page, where the difficulty buttons
    show in the [ModeSelection] state, clicking one does just that: no game
    is started (there is no board and no random number is drawn), nothing is
    emitted and the storage is not written. *)
Theorem selectDifficulty_changes_only_difficulty (fuel : nat)
    (newDifficulty : Difficulty) (sys : System) (c : nat) :
  gameState (app sys) = ModeSelection →
  (∀ a, handleSelectDifficulty newDifficulty a =
          {| gameState := Ready;
             score := score a;
             coins := coins a;
             totalPoints := totalPoints a;
             difficulty := newDifficulty |}) ∧
  dispatch fuel (ClickDifficulty newDifficulty) sys c =
    Some (({| app := handleSelectDifficulty newDifficulty (app sys);
              board := None;
              localStorage := localStorage sys |}, []), c).
Proof.
  intros Hstate. split; [reflexivity|].
  unfold dispatch. rewrite Hstate.
  unfold mbind, Rand_bind, commit. simpl.
  rewrite storageAfter_same by reflexivity. reflexivity.
Qed.

End PageFacts.

(** C10.  The initial [totalPoints] is [Number(stored) || 0]: the stored
    string read as a number, and [0] in its place only when that number is
    [NaN] or zero (an absent entry reads as zero).  Every other number is
    taken as it is, whatever its sign: from the stored string ["-5"] the
    session starts with the negative total [-5]. *)
Theorem initialTotalPoints_keeps_negative_numbers :
  (∀ storage : Storage,
     Js.Number (storage !! "totalPoints") = Js.NaN →
     initialTotalPoints storage = Js.Finite 0 0) ∧
  (∀ (storage : Storage) k,
     Js.Number (storage !! "totalPoints") = Js.Finite 0 k →
     initialTotalPoints storage = Js.Finite 0 0) ∧
  (∀ storage : Storage,
     Js.Number (storage !! "totalPoints") ≠ Js.NaN →
     (∀ k, Js.Number (storage !! "totalPoints") ≠ Js.Finite 0 k) →
     initialTotalPoints storage = Js.Number (storage !! "totalPoints")) ∧
  initialTotalPoints ∅ = Js.Finite 0 0 ∧
  initialTotalPoints {["totalPoints" := "abc"]} = Js.Finite 0 0 ∧
  initialTotalPoints {["totalPoints" := "-5"]} = Js.Finite (-5) 0 ∧
  Js.isNegative (totalPoints (app (mountApp {["totalPoints" := "-5"]}))) = true.
Proof.
  split_and!.
  - intros storage Hn. unfold initialTotalPoints. rewrite Hn. reflexivity.
  - intros storage k Hn. unfold initialTotalPoints. rewrite Hn. reflexivity.
  - intros storage Hnan Hzero. unfold initialTotalPoints, Js.or.
    destruct (Js.Number (storage !! "totalPoints")) as [|s|m k] eqn:Hn;
      [congruence|reflexivity|].
    simpl. destruct (Z.eqb_spec m 0) as [->|_]; [|reflexivity].
    exfalso. apply (Hzero k). reflexivity.
  - unfold initialTotalPoints. rewrite lookup_empty. reflexivity.
  - unfold initialTotalPoints. rewrite lookup_singleton_eq. reflexivity.
  - unfold initialTotalPoints. rewrite lookup_singleton_eq. reflexivity.
  - unfold mountApp, initialApp, initialTotalPoints; simpl.
    rewrite lookup_singleton_eq. reflexivity.
Qed.

(** ** The round-robin source is a fair source of valid draws *)

Lemma roundRobin_value (n : nat) :
  ∃ v, (v < 20)%nat ∧ roundRobin n = Z.of_nat v # 20.
Proof.
  unfold roundRobin.
  pose proof (Nat.mod_upper_bound n 801 ltac:(lia)) as Hr.
  set (r := (n mod 801)%nat) in *.
  destruct (Nat.eqb_spec r 800) as [_|Hne]; [exists 0%nat; split; [lia|reflexivity]|].
  destruct (Nat.even r).
  - eexists. split; [|reflexivity]. apply Nat.mod_upper_bound. lia.
  - eexists. split; [|reflexivity].
    apply Nat.Div0.div_lt_upper_bound.
    apply Nat.Div0.div_lt_upper_bound. lia.
Qed.

Lemma roundRobin_valid : validDraws roundRobin.
Proof.
  intros n. destruct (roundRobin_value n) as (v & Hv & ->).
  unfold Qle, Qlt; simpl. lia.
Qed.

Lemma floor_twentieths (v : nat) :
  Qfloor ((Z.of_nat v # 20) * inject_Z 20) = Z.of_nat v.
Proof.
  unfold Qfloor, Qmult, inject_Z; simpl.
  change (Z.pos (20 * 1)) with 20. apply Z.div_mul. lia.
Qed.

Lemma roundRobin_even (j q : nat) :
  (j < 400)%nat →
  roundRobin (2 * j + 801 * q) = Z.of_nat (j mod 20) # 20.
Proof.
  intros Hj. unfold roundRobin.
  replace ((2 * j + 801 * q) mod 801)%nat with (2 * j)%nat.
  2:{ rewrite (Nat.mul_comm 801 q), Nat.Div0.mod_add, Nat.mod_small; lia. }
  destruct (Nat.eqb_spec (2 * j) 800) as [E|_]; [lia|].
  rewrite Nat.even_mul. change (Nat.even 2) with true. cbn [orb].
  rewrite (Nat.mul_comm 2 j), Nat.div_mul by lia. reflexivity.
Qed.

Lemma roundRobin_odd (j q : nat) :
  (j < 400)%nat →
  roundRobin (S (2 * j + 801 * q)) = Z.of_nat (j / 20) # 20.
Proof.
  intros Hj. unfold roundRobin.
  replace (S (2 * j + 801 * q) mod 801)%nat with (1 + 2 * j)%nat.
  2:{ replace (S (2 * j + 801 * q)) with ((1 + 2 * j) + q * 801)%nat by lia.
      rewrite Nat.Div0.mod_add, Nat.mod_small; lia. }
  destruct (Nat.eqb_spec (1 + 2 * j) 800) as [E|_]; [lia|].
  rewrite Nat.even_add_mul_2. change (Nat.even 1) with false. cbn iota.
  rewrite (Nat.mul_comm 2 j), Nat.div_add by lia. reflexivity.
Qed.

Lemma roundRobin_fair : fair 20 roundRobin.
Proof.
  intros c [px py] [Hx Hy]; cbn [x y] in Hx, Hy.
  set (j := (Z.to_nat px + Z.to_nat py * 20)%nat).
  assert (j < 400)%nat as Hj by (unfold j; lia).
  pose proof (Nat.div_mod_eq c 801) as Hc.
  pose proof (Nat.mod_upper_bound c 801 ltac:(lia)) as Hr.
  assert (∃ k q, (c + 2 * k = 2 * j + 801 * q)%nat) as (k & q & Hk).
  { destruct (Nat.Even_or_Odd (c mod 801)) as [[m Hm]|[m Hm]].
    - exists (j + 801 - m)%nat, (c / 801 + 2)%nat. lia.
    - exists (j + 400 - m)%nat, (c / 801 + 1)%nat. lia. }
  exists k. unfold sample. rewrite Hk, roundRobin_even, roundRobin_odd by assumption.
  rewrite !floor_twentieths. unfold j.
  rewrite Nat.Div0.mod_add, Nat.div_add, Nat.mod_small, Nat.div_small by lia.
  f_equal; lia.
Qed.

(** ** The claims on concrete games *)

(** Settles a decidable proposition by evaluating its decision procedure. *)
Ltac decide_by_computation :=
  apply (bool_decide_unpack _); vm_compute; exact I.

Lemma reachable_pressKeys (BOARD_SIZE : Z) (random : nat → Q) (d : Difficulty)
    (fuel : nat) (keys : list string) :
  ∀ (b b' : Board) (c c' : nat),
  reachable BOARD_SIZE random d b →
  pressKeys BOARD_SIZE random d fuel keys b c = Some (b', c') →
  reachable BOARD_SIZE random d b'.
Proof.
  induction keys as [|key keys IH]; intros b b' c c' Hreach Hrun.
  - injection Hrun as <- _. assumption.
  - cbn [pressKeys] in Hrun. unfold mbind at 1, Rand_bind at 1 in Hrun.
    destruct (handleKeyDown BOARD_SIZE random d fuel key b c)
      as [[[b1 signals] c1]|] eqn:Hkey; [|discriminate].
    apply (IH b1 b' c1 c'); [|assumption].
    eapply reachable_key; eassumption.
Qed.

Lemma demoBoard_reachable (c : nat) (keys : list string) :
  is_Some ((b ← resetGame 20 roundRobin normal 1000;
            pressKeys 20 roundRobin normal 1000 keys b) c) →
  reachable 20 roundRobin normal (demoBoard c keys).
Proof.
  unfold demoBoard. intros [[b' c'] Hrun]. rewrite Hrun. simpl.
  unfold mbind, Rand_bind in Hrun.
  destruct (resetGame 20 roundRobin normal 1000 c) as [[b c1]|] eqn:Hreset;
    [|discriminate].
  eapply reachable_pressKeys; [|eassumption].
  eapply reachable_reset. eassumption.
Qed.

(** The bird of a game that pressed "up" twelve times is on the top row, and
    stays there when "up" is pressed again. *)
Lemma bird_stays_on_board_witness :
  inBounds 20 (birdPosition (demoBoard 0 (replicate 12 "ArrowUp"))) ∧
  y (birdPosition (demoBoard 0 (replicate 12 "ArrowUp"))) = 0 ∧
  ∀ fuel c,
    handleKeyDown 20 roundRobin normal fuel "ArrowUp"
                  (demoBoard 0 (replicate 12 "ArrowUp")) c
    = Some ((demoBoard 0 (replicate 12 "ArrowUp"), []), c).
Proof.
  destruct (bird_stays_on_board 20 roundRobin normal
              (demoBoard 0 (replicate 12 "ArrowUp")))
    as (Hin & Hup & _ & _ & _ & Hstay).
  - lia.
  - apply demoBoard_reachable. vm_compute. eexists. reflexivity.
  - split; [exact Hin|]. split; [vm_compute; reflexivity|].
    intros fuel c. apply Hstay. apply Hup. vm_compute. reflexivity.
Defined.

(** The board of that game satisfies the invariant. *)
Lemma reachable_boardInv_witness :
  boardInv 20 normal (demoBoard 0 (replicate 12 "ArrowUp")).
Proof.
  apply (reachable_boardInv 20 roundRobin normal).
  - lia.
  - exact roundRobin_valid.
  - apply demoBoard_reachable. vm_compute. eexists. reflexivity.
Defined.

(** At the end of the first session the bird is below the hard seed 38 of
    cell (19, 2): pressing "up" ends the game and leaves the board alone. *)
Lemma hazard_move_is_game_over_witness :
  handleKeyDown 20 roundRobin normal 1000 "ArrowUp"
                (demoBoard 0 firstSessionKeys) 141%nat
  = Some ((demoBoard 0 firstSessionKeys, [onGameOver]), 141%nat).
Proof.
  apply (hazard_move_is_game_over 20 roundRobin normal 1000 "ArrowUp"
           (demoBoard 0 firstSessionKeys) 141%nat
           {| x := 19; y := 2 |}
           {| id := 38; position := {| x := 19; y := 2 |}; type := Hard |});
    vm_compute; reflexivity.
Defined.

(** After seven presses of "up" the bird is below the good seed 32 of cell
    (10, 2): the eighth eats it, and seed 40 takes its place in the array. *)
Lemma good_seed_move_replaces_seed_witness :
  ∃ b' c' r,
    handleKeyDown 20 roundRobin normal 1000 "ArrowUp"
                  (demoBoard 0 (replicate 7 "ArrowUp")) 124%nat
    = Some ((b', [onScore]), c') ∧
    birdPosition b' = {| x := 10; y := 2 |} ∧
    length (seeds b') = length (seeds (demoBoard 0 (replicate 7 "ArrowUp"))) ∧
    last (seeds b') = Some r ∧
    id r = seedIdCounter (demoBoard 0 (replicate 7 "ArrowUp")) ∧
    (∀ s', s' ∈ seeds b' → id s' ≠ 32).
Proof.
  destruct (good_seed_move_replaces_seed 20 roundRobin normal "ArrowUp"
              (demoBoard 0 (replicate 7 "ArrowUp")) 124%nat
              {| x := 10; y := 2 |}
              {| id := 32; position := {| x := 10; y := 2 |}; type := Good |})
    as [Hsound _].
  - decide_by_computation.
  - apply Forall_forall. decide_by_computation.
  - vm_compute. reflexivity.
  - vm_compute. reflexivity.
  - reflexivity.
  - destruct (handleKeyDown 20 roundRobin normal 1000 "ArrowUp"
                (demoBoard 0 (replicate 7 "ArrowUp")) 124%nat)
      as [[[b' signals] c']|] eqn:Hrun; [|vm_compute in Hrun; discriminate].
    destruct (Hsound 1000%nat b' signals c' Hrun)
      as (-> & Hbird & _ & _ & Hlen & Hretired & l1 & l2 & r & _ & Hl' & Hid & _).
    exists b', c', r. split_and!; try assumption; try reflexivity.
    rewrite Hl'. apply last_snoc.
Defined.

(** In the second game, after four presses of "left", the bird is to the
    right of the coin 26 of cell (5, 10): the fifth collects it, as it would
    eat a good seed lying there. *)
Lemma coin_move_is_good_seed_move_witness :
  ∃ f0 b' c', ∀ fuel, (f0 ≤ fuel)%nat →
    handleKeyDown 20 roundRobin normal fuel "ArrowLeft"
                  (demoBoard 141 (replicate 4 "ArrowLeft")) 261%nat
    = Some ((b', [onCoinCollect]), c').
Proof.
  destruct (coin_move_is_good_seed_move 20 roundRobin normal "ArrowLeft"
              (demoBoard 141 (replicate 4 "ArrowLeft")) 261%nat
              {| x := 5; y := 10 |}
              {| id := 26; position := {| x := 5; y := 10 |}; type := Coin |}
              (take 26 (seeds (demoBoard 141 (replicate 4 "ArrowLeft"))))
              (drop 27 (seeds (demoBoard 141 (replicate 4 "ArrowLeft")))))
    as (_ & _ & Hreturns & _).
  - vm_compute. reflexivity.
  - vm_compute. reflexivity.
  - apply Forall_forall. decide_by_computation.
  - reflexivity.
  - reflexivity.
  - apply Hreturns; [lia|exact roundRobin_fair|vm_compute; reflexivity].
Defined.

(** A game of hard difficulty on 20 by 20 cells. *)
Lemma resetGame_places_the_seeds_witness :
  ∃ f0 b c',
    (∀ fuel, (f0 ≤ fuel)%nat →
       resetGame 20 roundRobin hard fuel 0%nat = Some (b, c')) ∧
    birdPosition b = {| x := 10; y := 10 |} ∧
    length (seeds b) = 50%nat ∧
    (∀ s, s ∈ seeds b → inBounds 20 (position s)) ∧
    NoDup (position <$> seeds b) ∧
    (∀ s, s ∈ seeds b → position s ≠ birdPosition b) ∧
    id <$> seeds b = Z.of_nat <$> seq 0 50 ∧
    seedIdCounter b = 50.
Proof.
  destruct (resetGame_places_the_seeds 20 roundRobin hard) as [Hsound Htotal].
  - lia.
  - exact roundRobin_valid.
  - destruct (Htotal roundRobin_fair ltac:(vm_compute; reflexivity) 0%nat)
      as (f0 & b & c' & Hrun).
    destruct (Hsound f0 0%nat b c' (Hrun f0 (Nat.le_refl f0)))
      as (Hbird & Hlen & Hin & Hnd & Hfree & Hids & Hctr).
    assert (length (seeds b) = 50%nat) as Hlen'.
    { change (initialSeeds (difficultySettings hard)) with 50 in Hlen. lia. }
    exists f0, b, c'. rewrite Hlen' in Hids.
    split_and!; assumption.
Defined.



(** The last key press of the first session takes the page from the board
    below the hard seed to the game-over screen. *)
Lemma game_over_is_terminal_witness :
  gameState (app afterFirstSession.1.1) = GameOver ∧
  board afterFirstSession.1.1 = None ∧
  ∀ fuel keys c,
    dispatchAll 20 roundRobin fuel (KeyDown <$> keys) afterFirstSession.1.1 c
    = Some ((afterFirstSession.1.1, []), c).
Proof.
  destruct (game_over_is_terminal 20 roundRobin 1000 "ArrowUp"
              belowHardSeed.1.1 afterFirstSession.1.1 [onGameOver]
              belowHardSeed.2 afterFirstSession.2)
    as (_ & Hstate & Hboard & Hkeys & _).
  - vm_compute. reflexivity.
  - left.
  - split_and!; assumption.
Defined.


(** On the difficulty screen of the first visit, choosing "hard". *)
Lemma selectDifficulty_changes_only_difficulty_witness :
  dispatch 20 roundRobin 1000 (ClickDifficulty hard)
    {| app := setGameState ModeSelection (app firstVisit);
       board := None;
       localStorage := localStorage firstVisit |} 0%nat
  = Some (({| app := {| gameState := Ready;
                        score := 0;
                        coins := 0;
                        totalPoints := Js.Finite 0 0;
                        difficulty := hard |};
              board := None;
              localStorage := localStorage firstVisit |}, []), 0%nat).
Proof.
  destruct (selectDifficulty_changes_only_difficulty 20 roundRobin 1000 hard
              {| app := setGameState ModeSelection (app firstVisit);
                 board := None;
                 localStorage := localStorage firstVisit |} 0)
    as [_ Hclick].
  - reflexivity.
  - exact Hclick.
Defined.

(** ** [String] and [Number] on integers

    [localStorage] holds [String(totalPoints)]; the next visit reads it back
    with [Number].  On the integers that a [ToString] prints without an
    exponent the two conversions are inverse. *)

Lemma uintValue_acc (d : Decimal.uint) (p : positive) :
  uintValue d (Z.pos p) = Z.pos (Pos.of_uint_acc d p).
Proof.
  revert p. induction d; intros p; cbn [uintValue Pos.of_uint_acc];
    [reflexivity|..]; rewrite <- IHd; f_equal; lia.
Qed.

Lemma uintValue_of_uint (d : Decimal.uint) :
  uintValue d 0 = Z.of_N (Pos.of_uint d).
Proof.
  induction d; cbn [uintValue Pos.of_uint]; [reflexivity|exact IHd|..];
    change (0 * 10 + ?v) with v; rewrite uintValue_acc; reflexivity.
Qed.

Lemma uintValue_to_uint (n : N) : uintValue (N.to_uint n) 0 = Z.of_N n.
Proof.
  rewrite uintValue_of_uint. f_equal. apply DecimalN.Unsigned.of_to.
Qed.

Lemma uintValue_lower (d : Decimal.uint) (acc : Z) :
  0 ≤ acc → acc * 10 ^ Z.of_nat (Decimal.nb_digits d) ≤ uintValue d acc.
Proof.
  revert acc. induction d; intros acc Hacc;
    cbn [uintValue Decimal.nb_digits]; [change (10 ^ _) with 1; lia|..];
    (etrans; [|apply IHd; lia]);
    rewrite Nat2Z.inj_succ, Z.pow_succ_r by lia;
    assert (0 < 10 ^ Z.of_nat (Decimal.nb_digits d)) by (apply Z.pow_pos_nonneg; lia);
    nia.
Qed.

Lemma to_uint_D0 (n : N) (d : Decimal.uint) :
  N.to_uint n = Decimal.D0 d → d = Decimal.Nil.
Proof.
  intros Hd.
  pose proof (DecimalN.Unsigned.to_of (N.to_uint n)) as Hn.
  rewrite DecimalN.Unsigned.of_to, Hd in Hn.
  change (Decimal.unorm (Decimal.D0 d)) with (Decimal.unorm d) in Hn.
  destruct d; [reflexivity|..];
    match type of Hn with _ = Decimal.unorm ?d' =>
      pose proof (DecimalFacts.nb_digits_unorm d' ltac:(discriminate)) as Hle
    end;
    rewrite <- Hn in Hle; cbn [Decimal.nb_digits] in Hle; lia.
Qed.

(** A natural number below [10^n] has at most [n] decimal digits. *)
Lemma nb_digits_to_uint (n : N) (k : nat) :
  (0 < k)%nat → Z.of_N n < 10 ^ Z.of_nat k →
  (Decimal.nb_digits (N.to_uint n) ≤ k)%nat.
Proof.
  intros Hk Hn. rewrite <- uintValue_to_uint in Hn.
  destruct (N.to_uint n) as [|d|d|d|d|d|d|d|d|d|d] eqn:Hd;
    cbn [Decimal.nb_digits]; [lia| |..].
  { apply to_uint_D0 in Hd as ->. cbn. lia. }
  all: cbn [uintValue] in Hn; change (0 * 10 + ?v) with v in Hn;
    match type of Hn with uintValue _ ?v < _ =>
      pose proof (uintValue_lower d v ltac:(lia)) as Hlow end;
    assert (10 ^ Z.of_nat (Decimal.nb_digits d) < 10 ^ Z.of_nat k) as Hlt
      by (assert (0 < 10 ^ Z.of_nat (Decimal.nb_digits d))
            by (apply Z.pow_pos_nonneg; lia); nia);
    apply Z.pow_lt_mono_r_iff in Hlt; lia.
Qed.

Lemma uintChars_digits (d : Decimal.uint) :
  Forall (λ a, a ∈ digitChars) (uintChars d).
Proof.
  unfold uintChars, digitChars.
  induction d; cbn [NilEmpty.string_of_uint list_ascii_of_string];
    constructor; try assumption; set_solver.
Qed.

Lemma to_uint_nonnil (n : N) : N.to_uint n ≠ Decimal.Nil.
Proof.
  intros Hnil. pose proof (uintValue_to_uint n) as Hv.
  pose proof (DecimalN.Unsigned.to_of (N.to_uint n)) as Hn.
  rewrite DecimalN.Unsigned.of_to, Hnil in Hn. discriminate.
Qed.

Lemma digitChar_cases (a : ascii) :
  a ∈ digitChars →
  Js.isWhiteSpace a = false ∧
  (∃ v, Js.digitValue 10 a = Some v ∧ 0 ≤ v ≤ 9) ∧
  a ≠ "-"%char ∧ a ≠ "+"%char ∧ a ≠ "I"%char.
Proof.
  unfold digitChars. intros Ha.
  repeat (apply elem_of_cons in Ha as [->|Ha]);
    [..|apply elem_of_nil in Ha; contradiction];
    (split_and!; [reflexivity|eexists; split; [vm_compute; reflexivity|lia]|discriminate..]).
Qed.

Lemma readDigits_uintChars (d : Decimal.uint) (acc : Z) (count : nat) :
  Js.readDigits 10 acc count (uintChars d) =
    (uintValue d acc, (count + Decimal.nb_digits d)%nat, []).
Proof.
  unfold uintChars. revert acc count.
  induction d; intros acc count;
    cbn [NilEmpty.string_of_uint list_ascii_of_string Js.readDigits
         uintValue Decimal.nb_digits];
    [rewrite Nat.add_0_r; reflexivity|..];
    (etrans; [apply IHd|]); f_equal; f_equal; lia.
Qed.

Lemma uintChars_length (d : Decimal.uint) :
  length (uintChars d) = Decimal.nb_digits d.
Proof.
  unfold uintChars.
  induction d; cbn [NilEmpty.string_of_uint list_ascii_of_string length
                    Decimal.nb_digits]; congruence.
Qed.

Lemma dropZeros_restore (l : list ascii) :
  replicate (length l - length (Js.dropZeros l)) "0"%char ++ Js.dropZeros l = l.
Proof.
  induction l as [|a l IH]; [reflexivity|].
  assert (length (Js.dropZeros l) ≤ length l)%nat as Hle.
  { clear. induction l as [|a l IH]; [reflexivity|].
    cbn [Js.dropZeros]. repeat case_match; cbn [length]; lia. }
  destruct (decide (a = "0"%char)) as [->|Hne].
  - cbn [Js.dropZeros length].
    replace (S (length l) - length (Js.dropZeros l))%nat
      with (S (length l - length (Js.dropZeros l))) by lia.
    cbn [replicate]. rewrite <- app_comm_cons. f_equal. exact IH.
  - assert (Js.dropZeros (a :: l) = a :: l) as ->.
    { cbn [Js.dropZeros]. repeat case_match; congruence. }
    rewrite Nat.sub_diag. reflexivity.
Qed.

Lemma stripTrailingZeros_restore (l : list ascii) :
  Js.stripTrailingZeros l ++
    replicate (length l - length (Js.stripTrailingZeros l)) "0"%char = l.
Proof.
  unfold Js.stripTrailingZeros.
  rewrite length_rev, <- (length_rev l).
  assert (∀ n, replicate n "0"%char = rev (replicate n "0"%char)) as Hrev.
  { clear. induction n as [|n IH]; [reflexivity|].
    cbn [replicate rev]. rewrite <- IH.
    clear. induction n as [|n IH]; [reflexivity|].
    cbn [replicate]. rewrite <- app_comm_cons. f_equal. exact IH. }
  rewrite Hrev, <- rev_app_distr, dropZeros_restore. apply rev_involutive.
Qed.

(** [String] prints an integer of at most 21 digits as its sign and its
    decimal digits. *)
Lemma ToString_integer (z : Z) :
  z ≠ 0 → Z.abs z < 10 ^ 21 →
  Js.ToString (Js.Finite z 0) =
    string_of_list_ascii
      ((if z <? 0 then ["-"%char] else []) ++ Js.digitsOf (Z.abs z)).
Proof.
  intros Hz Hlt. unfold Js.ToString.
  destruct (Z.eqb_spec z 0) as [|_]; [contradiction|].
  cbv zeta.
  set (all := Js.digitsOf (Z.abs z)).
  assert (length all ≤ 21)%nat as Hlen.
  { unfold all, Js.digitsOf. fold (uintChars (N.to_uint (Z.to_N (Z.abs z)))).
    rewrite uintChars_length.
    apply nb_digits_to_uint; [lia|]. rewrite Z2N.id by lia. exact Hlt. }
  assert (length (Js.stripTrailingZeros all) ≤ length all)%nat as Hs.
  { rewrite <- (stripTrailingZeros_restore all) at 2.
    rewrite length_app. lia. }
  rewrite Z.sub_0_r.
  destruct (Z.leb_spec (Z.of_nat (length (Js.stripTrailingZeros all)))
              (Z.of_nat (length all))) as [_|]; [|lia].
  destruct (Z.leb_spec (Z.of_nat (length all)) 21) as [_|]; [|lia].
  cbn [andb]. do 2 f_equal.
  replace (Z.to_nat _) with
    (length all - length (Js.stripTrailingZeros all))%nat by lia.
  apply stripTrailingZeros_restore.
Qed.

Lemma trimStart_head (a : ascii) (l : list ascii) :
  Js.isWhiteSpace a = false → Js.trimStart (a :: l) = a :: l.
Proof. intros Ha. cbn [Js.trimStart]. rewrite Ha. reflexivity. Qed.

Lemma trim_digits (sign l : list ascii) :
  (sign = [] ∨ sign = ["-"%char]) → l ≠ [] →
  Forall (λ a, a ∈ digitChars) l →
  Js.trim (sign ++ l) = sign ++ l.
Proof.
  intros Hsign Hne Hall. unfold Js.trim.
  assert (Js.trimStart (sign ++ l) = sign ++ l) as ->.
  { destruct Hsign as [->| ->]; [|apply trimStart_head; reflexivity].
    destruct l as [|a l]; [contradiction|].
    apply trimStart_head, digitChar_cases.
    apply Forall_cons in Hall as [Ha _]. exact Ha. }
  destruct (rev l) as [|a r] eqn:Hr.
  { apply (f_equal (@rev _)) in Hr. rewrite rev_involutive in Hr. contradiction. }
  rewrite rev_app_distr, Hr, <- app_comm_cons.
  rewrite trimStart_head.
  - rewrite app_comm_cons, <- Hr, <- rev_app_distr. apply rev_involutive.
  - apply digitChar_cases.
    apply (Forall_forall (λ a, a ∈ digitChars) l); [exact Hall|].
    apply list_elem_of_In, in_rev. rewrite Hr. left. reflexivity.
Qed.

Lemma unsignedDecimal_digits (negative : bool) (n : N) :
  Js.unsignedDecimal negative (uintChars (N.to_uint n)) =
    Js.Finite (if negative then - Z.of_N n else Z.of_N n) 0.
Proof.
  unfold Js.unsignedDecimal.
  pose proof (to_uint_nonnil n) as Hnil.
  pose proof (uintChars_digits (N.to_uint n)) as Hall.
  pose proof (uintChars_length (N.to_uint n)) as Hlen.
  destruct (decide _) as [Heq|_].
  { rewrite Heq in Hall. apply Forall_cons in Hall as [Ha _].
    apply digitChar_cases in Ha. exfalso. tauto. }
  rewrite readDigits_uintChars, uintValue_to_uint.
  destruct (Decimal.nb_digits (N.to_uint n)) as [|k] eqn:Hk.
  { apply DecimalFacts.nb_digits_0 in Hk. contradiction. }
  cbn [Nat.add Js.readExponent]. unfold Js.scale.
  change (0 - Z.of_nat 0) with 0. cbn [Z.leb Z.compare].
  change (10 ^ 0) with 1. rewrite Z.mul_1_r. reflexivity.
Qed.

Lemma StringToNumber_digits (negative : bool) (n : N) :
  Js.StringToNumber
    (string_of_list_ascii
       ((if negative then ["-"%char] else []) ++ uintChars (N.to_uint n))) =
    Js.Finite (if negative then - Z.of_N n else Z.of_N n) 0.
Proof.
  unfold Js.StringToNumber.
  pose proof (uintChars_digits (N.to_uint n)) as Hall.
  assert (uintChars (N.to_uint n) ≠ []) as Hne.
  { intros Hnil. apply (f_equal length) in Hnil.
    rewrite uintChars_length in Hnil.
    apply DecimalFacts.nb_digits_0 in Hnil.
    exact (to_uint_nonnil n Hnil). }
  rewrite list_ascii_of_string_of_list_ascii, trim_digits;
    [|destruct negative; auto|exact Hne|exact Hall].
  rewrite <- unsignedDecimal_digits.
  destruct negative; [reflexivity|]. rewrite app_nil_l.
  destruct (uintChars (N.to_uint n)) as [|a l]; [contradiction|].
  apply Forall_cons in Hall as [Ha Hl].
  destruct l as [|p l].
  - unfold digitChars in Ha.
    repeat (apply elem_of_cons in Ha as [->|Ha]);
      [..|apply elem_of_nil in Ha; contradiction]; reflexivity.
  - apply Forall_cons in Hl as [Hp _].
    assert (∀ q : ascii, q ∈ digitChars →
              (Js.code q =? 120) || (Js.code q =? 88) = false ∧
              (Js.code q =? 111) || (Js.code q =? 79) = false ∧
              (Js.code q =? 98) || (Js.code q =? 66) = false) as Hcode.
    { clear. unfold digitChars. intros q Hq.
      repeat (apply elem_of_cons in Hq as [->|Hq]);
        [..|apply elem_of_nil in Hq; contradiction]; repeat split. }
    destruct (Hcode p Hp) as (Hx & Ho & Hb).
    unfold digitChars in Ha.
    repeat (apply elem_of_cons in Ha as [->|Ha]);
      [..|apply elem_of_nil in Ha; contradiction];
      cbv beta iota zeta; rewrite ?Hx, ?Ho, ?Hb; reflexivity.
Qed.

Lemma Number_ToString_integer (z : Z) :
  Z.abs z < 10 ^ 21 →
  Js.Number (Some (Js.ToString (Js.Finite z 0))) = Js.Finite z 0.
Proof.
  intros Hlt. destruct (decide (z = 0)) as [->|Hz]; [reflexivity|].
  rewrite ToString_integer by assumption.
  unfold Js.Number, Js.digitsOf.
  fold (uintChars (N.to_uint (Z.to_N (Z.abs z)))).
  rewrite (StringToNumber_digits (z <? 0)), Z2N.id by lia.
  destruct (Z.ltb_spec z 0); f_equal; lia.
Qed.

(** ** More about the grid engine *)

(** X2.  A key press moves the bird by at most one cell, along one axis.
    From a bird on the board, whatever the key and whatever lies on the
    candidate cell, the bird after the key press is on the board, has kept
    its column or its row, and is at most one cell away. *)
Theorem key_press_moves_one_step (BOARD_SIZE : Z) (random : nat → Q)
    (d : Difficulty) (fuel : nat) (key : string) (b b' : Board)
    (signals : list Signal) (c c' : nat) :
  0 < BOARD_SIZE →
  inBounds BOARD_SIZE (birdPosition b) →
  handleKeyDown BOARD_SIZE random d fuel key b c = Some ((b', signals), c') →
  inBounds BOARD_SIZE (birdPosition b') ∧
  (x (birdPosition b') = x (birdPosition b) ∨
   y (birdPosition b') = y (birdPosition b)) ∧
  Z.abs (x (birdPosition b') - x (birdPosition b))
    + Z.abs (y (birdPosition b') - y (birdPosition b)) ≤ 1.
Proof.
  intros HB Hin Hrun. apply handleKeyDown_keyStep in Hrun.
  split; [eapply keyStep_bird; eassumption|].
  destruct Hin as [Hx Hy].
  assert (∀ newPos, candidate BOARD_SIZE key (birdPosition b) = Some newPos →
            (x newPos = x (birdPosition b) ∨ y newPos = y (birdPosition b)) ∧
            Z.abs (x newPos - x (birdPosition b))
              + Z.abs (y newPos - y (birdPosition b)) ≤ 1) as Hcand.
  { intros newPos Hc.
    destruct (candidate_cases _ _ _ _ Hc) as [[_ ->]|[[_ ->]|[[_ ->]|[_ ->]]]];
      simpl; lia. }
  inversion Hrun; subst; simpl; try (split; [left; reflexivity|lia]);
    apply Hcand; assumption.
Qed.

(** X3.  What a key press leaves alone.  A key press that emits no signal
    keeps the seeds and the identifier counter and draws no random number;
    one that emits [onGameOver] keeps the whole board and draws none
    either.  Otherwise exactly one seed was eaten, a good one for [onScore]
    and a coin for [onCoinCollect]: it lay on the bird's new cell, every
    other seed is still in the array, unchanged and in the same order, one
    seed is appended, the counter has grown by one and at least three
    random numbers were drawn. *)
Theorem key_press_frame (BOARD_SIZE : Z) (random : nat → Q) (d : Difficulty)
    (fuel : nat) (key : string) (b b' : Board) (signals : list Signal)
    (c c' : nat) :
  handleKeyDown BOARD_SIZE random d fuel key b c = Some ((b', signals), c') →
  (signals = [] ∧ seeds b' = seeds b ∧
   seedIdCounter b' = seedIdCounter b ∧ c' = c) ∨
  (signals = [onGameOver] ∧ b' = b ∧ c' = c) ∨
  (∃ l1 s l2 r,
     (signals = [onScore] ∧ type s = Good ∨
      signals = [onCoinCollect] ∧ type s = Coin) ∧
     seeds b = l1 ++ s :: l2 ∧ position s = birdPosition b' ∧
     seeds b' = (l1 ++ l2) ++ [r] ∧
     seedIdCounter b' = seedIdCounter b + 1 ∧ (c + 3 ≤ c')%nat).
Proof.
  rewrite handleKeyDown_unfold.
  destruct (candidate BOARD_SIZE key (birdPosition b)) as [newPos|].
  2:{ intros [= <- <- <-]. left. split_and!; reflexivity. }
  destruct (collidedSeedAt (seeds b) newPos) as [s|] eqn:Hs.
  2:{ intros [= <- <- <-]. left. split_and!; reflexivity. }
  destruct (decide (type s = Hard)) as [Hty|Hty].
  { intros [= <- <- <-]. right. left. split_and!; reflexivity. }
  destruct (filter_collided _ _ _ Hs) as (l1 & l2 & Hl & Hp & _ & ->). simpl.
  destruct (getRandomPosition BOARD_SIZE random fuel _ c) as [[p c1]|] eqn:Hrun;
    [|discriminate].
  destruct (getNewSeedType_total random d c1) as (ty & Hnew). rewrite Hnew.
  intros [= <- <- <-].
  apply getRandomPosition_sound in Hrun as (_ & k & _ & _ & -> & _).
  right. right.
  exists l1, s, l2, {| id := seedIdCounter b; position := p; type := ty |}.
  simpl. split_and!; try done; [|lia].
  destruct (type s); [left|contradiction|right];
    (split; [|reflexivity]); reflexivity.
Qed.


(** ** More about the page *)

Section PageInvariants.
Variable BOARD_SIZE : Z.
Variable random : nat → Q.

#[local] Abbreviation handleKeyDown := (handleKeyDown BOARD_SIZE random).
#[local] Abbreviation resetGame := (resetGame BOARD_SIZE random).
#[local] Abbreviation commit := (commit BOARD_SIZE random).
#[local] Abbreviation dispatch := (dispatch BOARD_SIZE random).
#[local] Abbreviation dispatchAll := (dispatchAll BOARD_SIZE random).

(** A key press on a page with a board. *)
Lemma dispatch_KeyDown_cases (fuel : nat) (key : string) (sys sys' : System)
    (b : Board) (signals : list Signal) (c c' : nat) :
  board sys = Some b → gameState (app sys) = Playing →
  dispatch fuel (KeyDown key) sys c = Some ((sys', signals), c') →
  ∃ b',
    handleKeyDown (difficulty (app sys)) fuel key b c
      = Some ((b', signals), c') ∧
    sys' = {| app := foldl deliver (app sys) signals;
              board := if decide (signals = [onGameOver]) then None
                       else Some b';
              localStorage :=
                storageAfter (app sys) (foldl deliver (app sys) signals)
                             (localStorage sys) |}.
Proof.
  intros Hb Hplay Hd. unfold dispatch in Hd. rewrite Hb in Hd.
  unfold mbind at 1, Rand_bind at 1 in Hd.
  destruct (handleKeyDown _ fuel key b c) as [[[b' sigs] c1]|] eqn:Hrun;
    [|discriminate].
  simpl in Hd.
  destruct (handleKeyDown_signals _ _ _ _ _ _ _ _ _ _ Hrun)
    as [->|[->|[->|(-> & -> & ->)]]];
    simpl in Hd; unfold mbind, Rand_bind, commit in Hd; simpl in Hd;
    rewrite ?Hplay in Hd; simpl in Hd; injection Hd as <- <- <-;
    eexists; (split; [reflexivity|]); reflexivity.
Qed.

(** The other events: the start button, and the three buttons of the
    menus. *)
Lemma dispatch_click_cases (fuel : nat) (ev : Event) (sys sys' : System)
    (signals : list Signal) (c c' : nat) :
  board sys = None → (∀ key, ev ≠ KeyDown key) →
  dispatch fuel ev sys c = Some ((sys', signals), c') →
  signals = [] ∧
  ((sys' = sys ∧ c' = c) ∨
   (∃ b, ev = ClickStart ∧
         resetGame (difficulty (app sys)) fuel c = Some (b, c') ∧
         sys' = {| app := handleStartGame (app sys);
                   board := Some b;
                   localStorage := localStorage sys |}) ∨
   (∃ g dl, g ≠ Playing ∧ c' = c ∧
            sys' = {| app := {| gameState := g;
                                score := score (app sys);
                                coins := coins (app sys);
                                totalPoints := totalPoints (app sys);
                                difficulty := dl |};
                      board := None;
                      localStorage := localStorage sys |})).
Proof.
  intros Hb Hev Hd. destruct ev as [key| | |dl|]; [destruct (Hev key eq_refl)|..];
    unfold dispatch in Hd.
  - destruct (decide (gameState (app sys) = Ready ∨ gameState (app sys) = GameOver))
      as [Hstate|Hstate].
    + pose proof (dispatch_ClickStart BOARD_SIZE random fuel sys c Hstate Hb) as Heq.
      unfold dispatch in Heq. rewrite Heq in Hd.
      destruct (resetGame _ fuel c) as [[b c1]|] eqn:Hreset; [|discriminate].
      injection Hd as <- <- <-. split; [reflexivity|]. right. left.
      exists b. split_and!; reflexivity.
    + destruct (gameState (app sys)); try (exfalso; apply Hstate; auto; fail);
        injection Hd as <- <- <-; (split; [reflexivity|]); left; split; reflexivity.
  - destruct (gameState (app sys)) eqn:Hg;
      unfold mbind, Rand_bind, commit in Hd; simpl in Hd;
      rewrite ?storageAfter_same in Hd by reflexivity;
      injection Hd as <- <- <-; (split; [reflexivity|]);
      try (left; split; reflexivity).
    right. right. exists ModeSelection, (difficulty (app sys)).
    split_and!; done.
  - destruct (gameState (app sys)) eqn:Hg;
      unfold mbind, Rand_bind, commit in Hd; simpl in Hd;
      rewrite ?storageAfter_same in Hd by reflexivity;
      injection Hd as <- <- <-; (split; [reflexivity|]);
      try (left; split; reflexivity).
    right. right. exists Ready, dl. split_and!; done.
  - destruct (gameState (app sys)) eqn:Hg;
      unfold mbind, Rand_bind, commit in Hd; simpl in Hd;
      rewrite ?storageAfter_same in Hd by reflexivity;
      injection Hd as <- <- <-; (split; [reflexivity|]);
      try (left; split; reflexivity).
    right. right. exists Ready, (difficulty (app sys)). split_and!; done.
Qed.

Lemma keyStep_counter (key : string) (b b' : Board) (signals : list Signal) :
  keyStep BOARD_SIZE random key b b' signals →
  (signals = [] ∨ signals = [onGameOver] →
   seedIdCounter b' = seedIdCounter b) ∧
  (signals = [onScore] ∨ signals = [onCoinCollect] →
   seedIdCounter b' = seedIdCounter b + 1).
Proof.
  intros Hstep.
  inversion Hstep as [| | |newPos s l1 l2 k ty Hc Hs Hl Hp Hl1 Hty Hfree];
    subst; simpl; (split; [|intros [?|?]; try discriminate]); try reflexivity.
  intros [?|?]; destruct (decide (type s = Coin)); discriminate.
Qed.

Lemma mountApp_pageInv (stored : Storage) : pageInv (mountApp stored).
Proof.
  split; simpl.
  - unfold mountedIffPlaying; simpl. split; [intros [b Hb]|]; discriminate.
  - unfold persisted, mountApp, persistTotalPoints; simpl. apply lookup_insert_eq.
  - lia.
  - intros b Hb. discriminate.
  - unfold initialTotalPoints, Js.or.
    destruct (Js.ToBoolean _); [apply Number_canonical|left; reflexivity].
Qed.

(** Every event keeps the invariant of the page. *)
Lemma dispatch_pageInv (fuel : nat) (ev : Event) (sys sys' : System)
    (signals : list Signal) (c c' : nat) :
  pageInv sys →
  dispatch fuel ev sys c = Some ((sys', signals), c') →
  pageInv sys'.
Proof.
  intros Hinv Hd. pose proof Hinv as [Hm Hper Hcnt Hctr Hcan].
  destruct (board sys) as [b|] eqn:Hb.
  - (* A game is on: the buttons are not shown. *)
    assert (gameState (app sys) = Playing) as Hplay.
    { apply Hm. rewrite Hb. eexists. reflexivity. }
    destruct ev as [key| | |dl|];
      [|unfold dispatch in Hd; rewrite Hplay in Hd;
        injection Hd as <- <- <-; assumption..].
    destruct (dispatch_KeyDown_cases _ _ _ _ _ _ _ _ Hb Hplay Hd)
      as (b' & Hrun & ->).
    pose proof (handleKeyDown_keyStep _ _ _ _ _ _ _ _ _ _ Hrun) as Hstep.
    destruct (keyStep_counter _ _ _ _ Hstep) as [Hsame Hnext].
    pose proof (keyStep_count _ _ _ _ _ _ Hstep) as Hlen.
    destruct (Hctr b eq_refl) as [Hc0 Hl0].
    destruct (handleKeyDown_signals _ _ _ _ _ _ _ _ _ _ Hrun)
      as [->|[->|[->|(-> & -> & ->)]]]; simpl.
    + split; simpl; rewrite ?storageAfter_same by reflexivity; try assumption.
      * unfold mountedIffPlaying; simpl. split; [intros _; assumption|eauto].
      * intros b0 [= <-]. rewrite Hsame, Hlen by auto. split; assumption.
    + split; simpl; rewrite ?storageAfter_same by reflexivity; try assumption.
      * unfold mountedIffPlaying; simpl. split; [intros _; assumption|eauto].
      * lia.
      * intros b0 [= <-]. rewrite Hnext, Hlen by auto. split; [lia|assumption].
    + split; simpl; rewrite ?storageAfter_same by reflexivity; try assumption.
      * unfold mountedIffPlaying; simpl. split; [intros _; assumption|eauto].
      * lia.
      * intros b0 [= <-]. rewrite Hnext, Hlen by auto. split; [lia|assumption].
    + split; simpl; try assumption.
      * unfold mountedIffPlaying; simpl. split; [intros [b0 ?]|]; discriminate.
      * unfold persisted; simpl. apply storageAfter_persisted. assumption.
      * intros b0 Hb0. discriminate.
      * apply add_canonical.
  - assert ((∃ key, ev = KeyDown key) ∨ ∀ key, ev ≠ KeyDown key)
      as [[key ->]|Hclick] by (destruct ev; eauto).
    { rewrite dispatch_KeyDown_unmounted in Hd by assumption.
      injection Hd as <- <- <-. assumption. }
    destruct (dispatch_click_cases fuel ev sys sys' signals c c' Hb Hclick Hd)
      as (-> & [(-> & ->)|[(b & -> & Hreset & ->)|(g & dl & Hg & -> & ->)]]).
    + assumption.
    + destruct (resetGame_sound BOARD_SIZE random (difficulty (app sys))
                  (λ _, True) fuel c c' b) as (_ & Hc0 & Hl0 & _);
        [done|assumption|].
      split; simpl; try assumption.
      * unfold mountedIffPlaying; simpl. split; [reflexivity|eauto].
      * lia.
      * intros b0 [= <-]. split; [lia|assumption].
    + split; simpl; try assumption.
      * unfold mountedIffPlaying; simpl. split; [intros [b0 ?]; discriminate|].
        intros ->. contradiction.
      * intros b0 Hb0. discriminate.
Qed.

Lemma reachablePage_pageInv (stored : Storage) (sys : System) :
  reachablePage BOARD_SIZE random stored sys → pageInv sys.
Proof.
  intros Hreach. induction Hreach as [|fuel ev sys sys' signals c c' _ IH Hd].
  - apply mountApp_pageInv.
  - eapply dispatch_pageInv; eassumption.
Qed.

(** Every event keeps the board, when there is one, well formed for the
    difficulty of the session. *)
Lemma dispatch_boardInv (fuel : nat) (ev : Event) (sys sys' : System)
    (signals : list Signal) (c c' : nat) :
  0 < BOARD_SIZE → validDraws random →
  pageInv sys →
  (∀ b, board sys = Some b → boardInv BOARD_SIZE (difficulty (app sys)) b) →
  dispatch fuel ev sys c = Some ((sys', signals), c') →
  ∀ b', board sys' = Some b' → boardInv BOARD_SIZE (difficulty (app sys')) b'.
Proof.
  intros HB Hv [Hm _ _ _ _] Hboard Hd.
  destruct (board sys) as [b|] eqn:Hb.
  - assert (gameState (app sys) = Playing) as Hplay.
    { apply Hm. rewrite Hb. eexists. reflexivity. }
    destruct ev as [key| | |dl|];
      [|unfold dispatch in Hd; rewrite Hplay in Hd;
        injection Hd as <- <- <-; rewrite Hb; assumption..].
    destruct (dispatch_KeyDown_cases _ _ _ _ _ _ _ _ Hb Hplay Hd)
      as (b' & Hrun & ->).
    pose proof (handleKeyDown_keyStep _ _ _ _ _ _ _ _ _ _ Hrun) as Hstep.
    pose proof (keyStep_boardInv _ _ _ _ _ _ _ HB Hv Hstep (Hboard b eq_refl))
      as Hinv'.
    destruct (handleKeyDown_signals _ _ _ _ _ _ _ _ _ _ Hrun)
      as [->|[->|[->|(-> & -> & ->)]]]; simpl;
      intros b0 [= <-]; assumption.
  - assert ((∃ key, ev = KeyDown key) ∨ ∀ key, ev ≠ KeyDown key)
      as [[key ->]|Hclick] by (destruct ev; eauto).
    { rewrite dispatch_KeyDown_unmounted in Hd by assumption.
      injection Hd as <- <- <-. rewrite Hb. intros b' Hb'. discriminate. }
    destruct (dispatch_click_cases fuel ev sys sys' signals c c' Hb Hclick Hd)
      as (-> & [(-> & ->)|[(b & -> & Hreset & ->)|(g & dl & Hg & -> & ->)]]).
    + rewrite Hb. intros b' Hb'. discriminate.
    + simpl. intros b' [= <-]. eapply resetGame_boardInv; eassumption.
    + simpl. intros b' Hb'. discriminate.
Qed.

Lemma reachablePage_boardInv (stored : Storage) (sys : System) :
  0 < BOARD_SIZE → validDraws random →
  reachablePage BOARD_SIZE random stored sys →
  ∀ b, board sys = Some b → boardInv BOARD_SIZE (difficulty (app sys)) b.
Proof.
  intros HB Hv Hreach.
  induction Hreach as [|fuel ev sys sys' signals c c' Hreach IH Hd].
  - intros b Hb. discriminate.
  - eapply dispatch_boardInv; try eassumption.
    eapply reachablePage_pageInv. eassumption.
Qed.



(** X5.  The board of the page.  On every page a visit can reach, a board
    is mounted exactly when the session is in the [Playing] state, and that
    board satisfies the invariant of the engine for the difficulty of the
    session; its identifier counter is the number of initial seeds plus the
    score, one identifier having been handed out per point. *)
Theorem page_board_invariant (stored : Storage) (sys : System) :
  0 < BOARD_SIZE → validDraws random →
  reachablePage BOARD_SIZE random stored sys →
  (is_Some (board sys) ↔ gameState (app sys) = Playing) ∧
  ∀ b, board sys = Some b →
    boardInv BOARD_SIZE (difficulty (app sys)) b ∧
    seedIdCounter b
      = initialSeeds (difficultySettings (difficulty (app sys)))
        + score (app sys).
Proof.
  intros HB Hv Hreach.
  destruct (reachablePage_pageInv stored sys Hreach) as [Hm _ _ Hctr _].
  split; [exact Hm|]. intros b Hb. split.
  - eapply reachablePage_boardInv; eassumption.
  - apply Hctr. assumption.
Qed.

(** X6.  The counters of the page.  On every page a visit can reach, the
    string stored under ["totalPoints"] is the string of the total in
    memory, and the coins are among the points of the score:
    [0 ≤ coins ≤ score]. *)
Theorem page_counters_invariant (stored : Storage) (sys : System) :
  reachablePage BOARD_SIZE random stored sys →
  localStorage sys !! "totalPoints"
    = Some (Js.ToString (totalPoints (app sys))) ∧
  0 ≤ coins (app sys) ≤ score (app sys).
Proof.
  intros Hreach.
  destruct (reachablePage_pageInv stored sys Hreach) as [_ Hper Hcnt _ _].
  split; assumption.
Qed.


(** The three buttons of the menus, each on the screen that shows it. *)
Lemma dispatch_menu (fuel : nat) (sys : System) (c : nat) :
  (gameState (app sys) = Ready →
   dispatch fuel ClickGameModes sys c =
     Some (({| app := setGameState ModeSelection (app sys);
               board := None;
               localStorage := localStorage sys |}, []), c)) ∧
  (gameState (app sys) = ModeSelection →
   dispatch fuel ClickBack sys c =
     Some (({| app := setGameState Ready (app sys);
               board := None;
               localStorage := localStorage sys |}, []), c)) ∧
  (gameState (app sys) = ModeSelection →
   ∀ dl, dispatch fuel (ClickDifficulty dl) sys c =
     Some (({| app := handleSelectDifficulty dl (app sys);
               board := None;
               localStorage := localStorage sys |}, []), c)).
Proof.
  split_and!; intros Hstate; [| |intros dl]; unfold dispatch; rewrite Hstate;
    unfold mbind, Rand_bind, commit; simpl;
    rewrite storageAfter_same by reflexivity; reflexivity.
Qed.



(** X10.  Leaving the menu changes nothing.  From a [Ready] page, opening
    the menu and going back, or opening it and choosing the difficulty the
    session already has, returns the very same page, with no signal and no
    random number drawn. *)
Theorem menu_round_trip (fuel : nat) (sys : System) (c : nat) :
  gameState (app sys) = Ready → board sys = None →
  dispatchAll fuel [ClickGameModes; ClickBack] sys c = Some ((sys, []), c) ∧
  dispatchAll fuel [ClickGameModes; ClickDifficulty (difficulty (app sys))]
              sys c = Some ((sys, []), c).
Proof.
  intros Hstate Hb.
  destruct (dispatch_menu fuel sys c) as (Hmodes & _ & _).
  set (sys1 := {| app := setGameState ModeSelection (app sys);
                  board := None;
                  localStorage := localStorage sys |}).
  destruct (dispatch_menu fuel sys1 c) as (_ & Hback & Hselect).
  assert ({| app := setGameState Ready (app sys1);
             board := None;
             localStorage := localStorage sys1 |} = sys) as Hsame.
  { destruct sys as [[g sc co tp dl] bd ls]; simpl in *. subst. reflexivity. }
  assert ({| app := handleSelectDifficulty (difficulty (app sys)) (app sys1);
             board := None;
             localStorage := localStorage sys1 |} = sys) as Hsame'.
  { destruct sys as [[g sc co tp dl] bd ls]; simpl in *. subst. reflexivity. }
  split.
  - rewrite dispatchAll_cons, (Hmodes Hstate), dispatchAll_cons.
    fold sys1. rewrite (Hback eq_refl), Hsame. reflexivity.
  - rewrite dispatchAll_cons, (Hmodes Hstate), dispatchAll_cons.
    fold sys1. rewrite (Hselect eq_refl), Hsame'. reflexivity.
Qed.

(** X11.  Counting the signals.  During a run of key presses on a page
    with a game on, the score grows by the number of [onScore] and
    [onCoinCollect] signals and the coins by the number of [onCoinCollect]
    signals; there is at most one signal per key; and [onGameOver], when it
    is emitted, is the last signal of the run and is emitted once. *)
Theorem key_presses_count (fuel : nat) (keys : list string) :
  ∀ (sys sys' : System) (signals : list Signal) (c c' : nat),
  gameState (app sys) = Playing → is_Some (board sys) →
  dispatchAll fuel (KeyDown <$> keys) sys c = Some ((sys', signals), c') →
  score (app sys')
    = score (app sys)
      + Z.of_nat (length (filter (λ s, s ≠ onGameOver) signals)) ∧
  coins (app sys')
    = coins (app sys)
      + Z.of_nat (length (filter (λ s, s = onCoinCollect) signals)) ∧
  (length signals ≤ length keys)%nat ∧
  (onGameOver ∈ signals →
   ∃ collected, signals = collected ++ [onGameOver] ∧
                (onGameOver ∉ collected)).
Proof.
  induction keys as [|key keys IH]; intros sys sys' signals c c' Hplay [b Hb] Hrun.
  - injection Hrun as <- <- <-. simpl. split_and!; try lia.
    intros Hin. inversion Hin.
  - rewrite fmap_cons, dispatchAll_cons in Hrun.
    destruct (dispatch fuel (KeyDown key) sys c) as [[[sys1 sigs1] c1]|] eqn:Hd;
      [|discriminate].
    destruct (dispatchAll fuel (KeyDown <$> keys) sys1 c1)
      as [[[sys2 sigs2] c2]|] eqn:Hrest; [|discriminate].
    injection Hrun as <- <- <-.
    destruct (dispatch_KeyDown_cases _ _ _ _ _ _ _ _ Hb Hplay Hd)
      as (b' & Hkey & ->).
    destruct (handleKeyDown_signals _ _ _ _ _ _ _ _ _ _ Hkey)
      as [->|[->|[->|(-> & -> & ->)]]].
    + apply IH in Hrest as (Hs & Hc & Hl & Hlast);
        [|exact Hplay|simpl; eexists; reflexivity].
      simpl in *. split_and!; try assumption; lia.
    + apply IH in Hrest as (Hs & Hc & Hl & Hlast);
        [|exact Hplay|simpl; eexists; reflexivity].
      simpl in Hs, Hc |- *.
      rewrite ?(filter_cons_True (λ s, s ≠ onGameOver)),
              ?(filter_cons_False (λ s, s = onCoinCollect)) by discriminate.
      simpl. split_and!; try lia.
      intros Hin. apply elem_of_cons in Hin as [?|Hin]; [discriminate|].
      destruct (Hlast Hin) as (collected & -> & Hno).
      exists (onScore :: collected). split; [reflexivity|].
      intros Hin'. apply elem_of_cons in Hin' as [?|?];
        [discriminate|contradiction].
    + apply IH in Hrest as (Hs & Hc & Hl & Hlast);
        [|exact Hplay|simpl; eexists; reflexivity].
      simpl in Hs, Hc |- *.
      rewrite ?(filter_cons_True (λ s, s ≠ onGameOver)),
              ?(filter_cons_True (λ s, s = onCoinCollect))
        by (discriminate || reflexivity).
      simpl. split_and!; try lia.
      intros Hin. apply elem_of_cons in Hin as [?|Hin]; [discriminate|].
      destruct (Hlast Hin) as (collected & -> & Hno).
      exists (onCoinCollect :: collected). split; [reflexivity|].
      intros Hin'. apply elem_of_cons in Hin' as [?|?];
        [discriminate|contradiction].
    + rewrite (dispatchAll_keys_unmounted BOARD_SIZE random) in Hrest
        by reflexivity.
      injection Hrest as <- <- <-. simpl. split_and!; try lia.
      intros _. exists []. split; [reflexivity|]. apply not_elem_of_nil.
Qed.

(** The pages a sequence of events leads to are pages of the visit. *)
Lemma dispatchAll_reachablePage (stored : Storage) (fuel : nat)
    (evs : list Event) :
  ∀ (sys sys' : System) (signals : list Signal) (c c' : nat),
    reachablePage BOARD_SIZE random stored sys →
    dispatchAll fuel evs sys c = Some ((sys', signals), c') →
    reachablePage BOARD_SIZE random stored sys'.
Proof.
  induction evs as [|ev evs IH]; intros sys sys' signals c c' Hreach Hrun.
  - injection Hrun as <- _ _. exact Hreach.
  - rewrite dispatchAll_cons in Hrun.
    destruct (dispatch fuel ev sys c) as [[[sys1 s1] c1]|] eqn:Hd;
      [|discriminate].
    destruct (dispatchAll fuel evs sys1 c1) as [[[sys2 s2] c2]|] eqn:Hrest;
      [|discriminate].
    injection Hrun as <- _ _.
    eapply IH; [|exact Hrest].
    eapply page_event; [exact Hreach|exact Hd].
Qed.

(** X12.  Reloading the page.  On every page a visit can reach whose total
    is an integer that a JavaScript number holds exactly, closing the page
    and opening it again gives the first screen with the same total, the
    score and the coins at zero and the difficulty back to normal; the
    stored string is not changed by the reload. *)
Theorem reload_restores_totalPoints (stored : Storage) (sys : System) (z : Z) :
  reachablePage BOARD_SIZE random stored sys →
  totalPoints (app sys) = Js.Finite z 0 →
  Z.abs z < 2 ^ 53 →
  initialTotalPoints (localStorage sys) = Js.Finite z 0 ∧
  app (mountApp (localStorage sys)) =
    {| gameState := Ready; score := 0; coins := 0;
       totalPoints := Js.Finite z 0; difficulty := normal |} ∧
  board (mountApp (localStorage sys)) = None ∧
  localStorage (mountApp (localStorage sys)) = localStorage sys.
Proof.
  intros Hreach Hz Hsafe.
  apply reachablePage_pageInv in Hreach as [_ Hstored _ _ _].
  unfold persisted in Hstored. rewrite Hz in Hstored.
  assert (initialTotalPoints (localStorage sys) = Js.Finite z 0) as Hinit.
  { unfold initialTotalPoints. rewrite Hstored, Number_ToString_integer by lia.
    unfold Js.or, Js.ToBoolean.
    destruct (Z.eqb_spec z 0) as [->|_]; reflexivity. }
  split_and!; [exact Hinit| | |].
  - unfold mountApp, initialApp. cbn [app]. rewrite Hinit. reflexivity.
  - reflexivity.
  - unfold mountApp, initialApp, persistTotalPoints.
    cbn [localStorage totalPoints]. rewrite Hinit.
    apply insert_id. exact Hstored.
Qed.

End PageInvariants.

(** ** The rectangles of the sprites *)

Lemma cellRect_disjoint (CELL_SIZE : Z) (p q : Position) :
  0 < CELL_SIZE → p ≠ q →
  ¬ overlap (cellRect CELL_SIZE p) (cellRect CELL_SIZE q).
Proof.
  intros Hc Hpq (Hx1 & Hx2 & Hy1 & Hy2).
  unfold cellRect, birdStyle in *.
  cbn [rect_left rect_top rect_width rect_height] in *.
  assert (0 < inject_Z CELL_SIZE)%Q as Hc'
    by (change 0%Q with (inject_Z 0); rewrite <- Zlt_Qlt; exact Hc).
  assert (∀ a b : Z,
    (inject_Z a * inject_Z CELL_SIZE
       < inject_Z b * inject_Z CELL_SIZE + inject_Z CELL_SIZE)%Q →
    a ≤ b) as Hstep.
  { intros a b Hab. destruct (Z_le_gt_dec a b) as [|Hgt]; [assumption|].
    exfalso.
    assert (inject_Z b + 1 <= inject_Z a)%Q as Hle.
    { change 1%Q with (inject_Z 1). rewrite <- inject_Z_plus, <- Zle_Qle. lia. }
    apply (Qmult_le_compat_r _ _ (inject_Z CELL_SIZE)) in Hle; [|lra].
    lra. }
  apply Hstep in Hx1, Hx2, Hy1, Hy2.
  apply Hpq. destruct p as [px py], q as [qx qy]. cbn [x y] in *.
  f_equal; lia.
Qed.

Lemma overlap_within (r r' s s' : Rect) :
  within r r' → within s s' → overlap r s → overlap r' s'.
Proof.
  unfold within, overlap.
  intros (? & ? & ? & ?) (? & ? & ? & ?) (? & ? & ? & ?).
  split_and!; lra.
Qed.

Lemma seedStyle_within (CELL_SIZE : Z) (s : Seed) :
  0 < CELL_SIZE →
  within (seedStyle CELL_SIZE s) (cellRect CELL_SIZE (position s)).
Proof.
  intros Hc.
  assert (0 < inject_Z CELL_SIZE)%Q as Hc'
    by (change 0%Q with (inject_Z 0); rewrite <- Zlt_Qlt; exact Hc).
  unfold within, seedStyle, cellRect, birdStyle.
  cbn [rect_left rect_top rect_width rect_height].
  split_and!; lra.
Qed.

(** X13.  No sprite is drawn over another.  On a well-formed board (every
    board of a game is one) and for a positive cell size, the rectangle of a
    seed lies within the square of its cell with a quarter of a cell free on
    every side, no seed rectangle overlaps the bird's, no two seed
    rectangles overlap, and the React keys of the seeds are pairwise
    different. *)
Theorem sprites_do_not_overlap (BOARD_SIZE CELL_SIZE : Z) (d : Difficulty)
    (b : Board) :
  0 < CELL_SIZE →
  boardInv BOARD_SIZE d b →
  (∀ s, s ∈ seeds b →
     let r := seedStyle CELL_SIZE s in
     let cell := cellRect CELL_SIZE (position s) in
     (rect_left r - rect_left cell == inject_Z CELL_SIZE * (1 # 4))%Q ∧
     (rect_top r - rect_top cell == inject_Z CELL_SIZE * (1 # 4))%Q ∧
     (rect_left cell + rect_width cell - (rect_left r + rect_width r)
        == inject_Z CELL_SIZE * (1 # 4))%Q ∧
     (rect_top cell + rect_height cell - (rect_top r + rect_height r)
        == inject_Z CELL_SIZE * (1 # 4))%Q ∧
     ¬ overlap r (birdStyle CELL_SIZE (birdPosition b))) ∧
  (∀ i j s t, seeds b !! i = Some s → seeds b !! j = Some t → i ≠ j →
     id s ≠ id t ∧
     ¬ overlap (seedStyle CELL_SIZE s) (seedStyle CELL_SIZE t)).
Proof.
  intros Hc [_ _ Hdistinct Hids _ _].
  apply NoDup_cons in Hdistinct as [Hbird Hseeds].
  split.
  - intros s Hs. cbv zeta.
    split_and!;
      try (unfold seedStyle, cellRect, birdStyle;
           cbn [rect_left rect_top rect_width rect_height]; ring).
    intros Hov.
    apply (cellRect_disjoint CELL_SIZE (position s) (birdPosition b) Hc).
    + intros Heq. apply Hbird. rewrite <- Heq.
      apply list_elem_of_fmap. exists s. split; [reflexivity|exact Hs].
    + eapply overlap_within; [apply seedStyle_within; exact Hc| |exact Hov].
      unfold within, cellRect. split_and!; lra.
  - intros i j s t Hi Hj Hij. split.
    + intros Heq. apply Hij.
      eapply (NoDup_lookup (id <$> seeds b)); [exact Hids| |].
      * rewrite list_lookup_fmap, Hi. reflexivity.
      * rewrite list_lookup_fmap, Hj. cbn. rewrite Heq. reflexivity.
    + intros Hov.
      apply (cellRect_disjoint CELL_SIZE (position s) (position t) Hc).
      * intros Heq. apply Hij.
        eapply (NoDup_lookup (position <$> seeds b)); [exact Hseeds| |].
        -- rewrite list_lookup_fmap, Hi. reflexivity.
        -- rewrite list_lookup_fmap, Hj. cbn. rewrite Heq. reflexivity.
      * eapply overlap_within; [apply seedStyle_within; exact Hc..|exact Hov].
Qed.

(** ** The properties above, on the concrete games *)

Lemma runPage_reachablePage (evs : list Event) (sys : System) (c : nat) :
  reachablePage 20 roundRobin ∅ sys →
  is_Some (dispatchAll 20 roundRobin 1000 evs sys c) →
  reachablePage 20 roundRobin ∅ (runPage evs sys c).1.1.
Proof.
  intros Hreach [[[sys' signals] c'] Hrun]. unfold runPage.
  rewrite Hrun. cbn [returned fst].
  eapply dispatchAll_reachablePage; [exact Hreach|exact Hrun].
Qed.

Lemma firstVisit_reachablePage : reachablePage 20 roundRobin ∅ firstVisit.
Proof. apply page_first_render. Qed.

Lemma belowHardSeed_reachablePage :
  reachablePage 20 roundRobin ∅ belowHardSeed.1.1.
Proof.
  apply runPage_reachablePage; [exact firstVisit_reachablePage|].
  vm_compute. eexists. reflexivity.
Qed.

Lemma afterFirstSession_reachablePage :
  reachablePage 20 roundRobin ∅ afterFirstSession.1.1.
Proof.
  apply runPage_reachablePage; [exact firstVisit_reachablePage|].
  vm_compute. eexists. reflexivity.
Qed.

Lemma afterSecondSession_reachablePage :
  reachablePage 20 roundRobin ∅ afterSecondSession.1.1.
Proof.
  apply runPage_reachablePage; [exact afterFirstSession_reachablePage|].
  vm_compute. eexists. reflexivity.
Qed.

(** The press that eats the good seed of cell (10, 2) takes the bird from
    (10, 3) to (10, 2). *)
Lemma key_press_moves_one_step_witness :
  birdPosition (demoBoard 0 (replicate 7 "ArrowUp")) = {| x := 10; y := 3 |} ∧
  birdPosition seedPress.1.1 = {| x := 10; y := 2 |} ∧
  inBounds 20 (birdPosition seedPress.1.1) ∧
  (x (birdPosition seedPress.1.1)
     = x (birdPosition (demoBoard 0 (replicate 7 "ArrowUp"))) ∨
   y (birdPosition seedPress.1.1)
     = y (birdPosition (demoBoard 0 (replicate 7 "ArrowUp")))) ∧
  Z.abs (x (birdPosition seedPress.1.1)
         - x (birdPosition (demoBoard 0 (replicate 7 "ArrowUp"))))
    + Z.abs (y (birdPosition seedPress.1.1)
             - y (birdPosition (demoBoard 0 (replicate 7 "ArrowUp")))) ≤ 1.
Proof.
  split; [vm_compute; reflexivity|]. split; [vm_compute; reflexivity|].
  apply (key_press_moves_one_step 20 roundRobin normal 1000 "ArrowUp"
           (demoBoard 0 (replicate 7 "ArrowUp")) seedPress.1.1 seedPress.1.2
           124%nat seedPress.2).
  - lia.
  - assert (birdPosition (demoBoard 0 (replicate 7 "ArrowUp"))
              = {| x := 10; y := 3 |}) as -> by (vm_compute; reflexivity).
    unfold inBounds. cbn [x y]. lia.
  - vm_compute. reflexivity.
Defined.

(** The press that collects the coin 26 of cell (5, 10) emits
    [onCoinCollect], removes that seed alone and appends one. *)
Lemma key_press_frame_witness :
  coinPress.1.2 = [onCoinCollect] ∧
  ∃ l1 s l2 r,
    type s = Coin ∧
    seeds (demoBoard 141 (replicate 4 "ArrowLeft")) = l1 ++ s :: l2 ∧
    position s = birdPosition coinPress.1.1 ∧
    seeds coinPress.1.1 = (l1 ++ l2) ++ [r] ∧
    seedIdCounter coinPress.1.1
      = seedIdCounter (demoBoard 141 (replicate 4 "ArrowLeft")) + 1 ∧
    (261 + 3 ≤ coinPress.2)%nat.
Proof.
  assert (coinPress.1.2 = [onCoinCollect]) as Hsig by (vm_compute; reflexivity).
  split; [exact Hsig|].
  destruct (key_press_frame 20 roundRobin normal 1000 "ArrowLeft"
              (demoBoard 141 (replicate 4 "ArrowLeft"))
              coinPress.1.1 coinPress.1.2 261%nat coinPress.2)
    as [(Hnil & _)|[(Hover & _)|(l1 & s & l2 & r & Hty & Hl & Hpos & Hl' & Hctr & Hc)]].
  - vm_compute. reflexivity.
  - rewrite Hsig in Hnil. discriminate Hnil.
  - rewrite Hsig in Hover. discriminate Hover.
  - exists l1, s, l2, r.
    assert (type s = Coin) as Hcoin.
    { destruct Hty as [[Hscore _]|[_ Hcoin]]; [|exact Hcoin].
      rewrite Hsig in Hscore. discriminate Hscore. }
    split_and!; assumption.
Defined.

(** While the first session is below the hard seed, its board is mounted,
    well formed, and has handed out 45 identifiers: 40 seeds and 5 points. *)
Lemma page_board_invariant_witness :
  gameState (app belowHardSeed.1.1) = Playing ∧
  boardInv 20 normal (demoBoard 0 firstSessionKeys) ∧
  seedIdCounter (demoBoard 0 firstSessionKeys) = 40 + 5.
Proof.
  destruct (page_board_invariant 20 roundRobin ∅ belowHardSeed.1.1)
    as [Hiff Hboard].
  - lia.
  - exact roundRobin_valid.
  - exact belowHardSeed_reachablePage.
  - split; [apply Hiff; vm_compute; eexists; reflexivity|].
    apply (Hboard (demoBoard 0 firstSessionKeys)).
    vm_compute. reflexivity.
Defined.

(** After the two sessions the stored string is that of the total, and the
    three coins are among the three points. *)
Lemma page_counters_invariant_witness :
  localStorage afterSecondSession.1.1 !! "totalPoints"
    = Some (Js.ToString (totalPoints (app afterSecondSession.1.1))) ∧
  0 ≤ coins (app afterSecondSession.1.1) ≤ score (app afterSecondSession.1.1).
Proof.
  apply (page_counters_invariant 20 roundRobin ∅).
  exact afterSecondSession_reachablePage.
Defined.




(** The menu of the first visit, opened and left again. *)
Lemma menu_round_trip_witness :
  dispatchAll 20 roundRobin 1000 [ClickGameModes; ClickBack] firstVisit 0%nat
    = Some ((firstVisit, []), 0%nat) ∧
  dispatchAll 20 roundRobin 1000
              [ClickGameModes; ClickDifficulty (difficulty (app firstVisit))]
              firstVisit 0%nat
    = Some ((firstVisit, []), 0%nat).
Proof.
  apply (menu_round_trip 20 roundRobin 1000 firstVisit 0%nat); reflexivity.
Defined.

(** The key presses of the first session: five signals [onScore] and the
    final [onGameOver], for a score of 5 and no coin. *)
Lemma key_presses_count_witness :
  afterFirstSession.1.2 = replicate 5 onScore ++ [onGameOver] ∧
  score (app afterFirstSession.1.1)
    = score (app started.1.1)
      + Z.of_nat (length (filter (λ s, s ≠ onGameOver) afterFirstSession.1.2)) ∧
  coins (app afterFirstSession.1.1)
    = coins (app started.1.1)
      + Z.of_nat (length (filter (λ s, s = onCoinCollect) afterFirstSession.1.2)) ∧
  (length afterFirstSession.1.2 ≤ length (firstSessionKeys ++ ["ArrowUp"]))%nat ∧
  (onGameOver ∈ afterFirstSession.1.2 →
   ∃ collected, afterFirstSession.1.2 = collected ++ [onGameOver] ∧
                (onGameOver ∉ collected)).
Proof.
  split; [vm_compute; reflexivity|].
  apply (key_presses_count 20 roundRobin 1000 (firstSessionKeys ++ ["ArrowUp"])
           started.1.1 afterFirstSession.1.1 afterFirstSession.1.2
           started.2 afterFirstSession.2).
  - vm_compute. reflexivity.
  - vm_compute. eexists. reflexivity.
  - vm_compute. reflexivity.
Defined.

(** After the two sessions the total is 8: a reload starts from 8. *)
Lemma reload_restores_totalPoints_witness :
  initialTotalPoints (localStorage afterSecondSession.1.1) = Js.Finite 8 0 ∧
  app (mountApp (localStorage afterSecondSession.1.1)) =
    {| gameState := Ready; score := 0; coins := 0;
       totalPoints := Js.Finite 8 0; difficulty := normal |} ∧
  board (mountApp (localStorage afterSecondSession.1.1)) = None ∧
  localStorage (mountApp (localStorage afterSecondSession.1.1))
    = localStorage afterSecondSession.1.1.
Proof.
  apply (reload_restores_totalPoints 20 roundRobin ∅ afterSecondSession.1.1 8).
  - exact afterSecondSession_reachablePage.
  - vm_compute. reflexivity.
  - vm_compute. reflexivity.
Defined.

(** The sprites of the board below the hard seed, with cells of 25 pixels. *)
Lemma sprites_do_not_overlap_witness :
  boardInv 20 normal (demoBoard 0 firstSessionKeys) ∧
  ∀ i j s t,
    seeds (demoBoard 0 firstSessionKeys) !! i = Some s →
    seeds (demoBoard 0 firstSessionKeys) !! j = Some t → i ≠ j →
    id s ≠ id t ∧ ¬ overlap (seedStyle 25 s) (seedStyle 25 t).
Proof.
  assert (boardInv 20 normal (demoBoard 0 firstSessionKeys)) as Hinv;
    [|split; [exact Hinv|];
      apply (sprites_do_not_overlap 20 25 normal
               (demoBoard 0 firstSessionKeys)); [lia|exact Hinv]].
  apply (reachablePage_boardInv 20 roundRobin ∅ belowHardSeed.1.1).
  - lia.
  - exact roundRobin_valid.
  - exact belowHardSeed_reachablePage.
  - vm_compute. reflexivity.
Defined.
